(** * RateYourMusic site adapter (catalog/sites/rateyourmusic.py)

    A shallow embedding of the [RateYourMusic] class: the identifier/URL
    pair [id_to_url] / [url_to_id] and the HTML extraction
    [_extract_from_html], followed by the properties stated for them.

    Conventions of the model.
    - A Python [str] is a [string]; one [ascii] stands for one code point,
      so the model covers text whose code points are below 256.  Character
      classes ([str.isspace], the regular expression class \w) follow
      Python's tables on that range.
    - A parsed document is the function that answers its XPath queries.
    - Local variables of [_extract_from_html] live in the record [Locals];
      the body of the [try] block runs in a state monad in which a raised
      exception keeps the state reached so far, as the [except] clause of
      the source sees it.
    - [logger.warning] writes to the log only and is left out: it has no
      influence on the returned value. *)

From Stdlib Require Import String Ascii List Bool Arith ZArith Lia.
From Stdlib Require Import DecimalString.
Import ListNotations.
Local Open Scope list_scope.
Local Open Scope string_scope.

(* ================================================================= *)
(** ** Python string operations *)

Module PyStr.

Definition code (c : ascii) : nat := nat_of_ascii c.

Definition in_range (lo hi : nat) (c : ascii) : bool :=
  Nat.leb lo (code c) && Nat.leb (code c) hi.

(** [str.isspace] on one character: TAB..CR, FS..US, SPACE, NEL, NBSP. *)
Definition is_space (c : ascii) : bool :=
  in_range 9 13 c || in_range 28 32 c
  || (Nat.eqb (code c) 133) || (Nat.eqb (code c) 160).

(** The class \w of [re] on [str] patterns: alphanumerics and underscore. *)
Definition is_word (c : ascii) : bool :=
  in_range 48 57 c || in_range 65 90 c || in_range 97 122 c
  || (Nat.eqb (code c) 95)
  || (Nat.eqb (code c) 170) || (Nat.eqb (code c) 178) || (Nat.eqb (code c) 179)
  || (Nat.eqb (code c) 181) || (Nat.eqb (code c) 185) || (Nat.eqb (code c) 186)
  || in_range 188 190 c
  || in_range 192 214 c || in_range 216 246 c || in_range 248 255 c.

Definition newline : ascii := ascii_of_nat 10.
Definition is_newline (c : ascii) : bool := Ascii.eqb c newline.

(** [s.lstrip(chars)] for the characters accepted by [p]. *)
Fixpoint lstrip_by (p : ascii -> bool) (s : string) : string :=
  match s with
  | EmptyString => EmptyString
  | String c s' => if p c then lstrip_by p s' else s
  end.

(** [s.rstrip(chars)] for the characters accepted by [p]. *)
Fixpoint rstrip_by (p : ascii -> bool) (s : string) : string :=
  match s with
  | EmptyString => EmptyString
  | String c s' =>
      match rstrip_by p s' with
      | EmptyString => if p c then EmptyString else String c EmptyString
      | r => String c r
      end
  end.

(** [s.strip()] *)
Definition strip (s : string) : string :=
  rstrip_by is_space (lstrip_by is_space s).

(** [s.rstrip(c)] for a one-character argument. *)
Definition rstrip_char (c : ascii) (s : string) : string :=
  rstrip_by (Ascii.eqb c) s.

(** [sep.join(l)] *)
Fixpoint join (sep : string) (l : list string) : string :=
  match l with
  | [] => ""
  | [x] => x
  | x :: rest => x ++ sep ++ join sep rest
  end.

(** [s.startswith(p)], returning what follows the prefix. *)
Fixpoint drop_prefix (p s : string) : option string :=
  match p, s with
  | EmptyString, _ => Some s
  | String a p', String b s' =>
      if Ascii.eqb a b then drop_prefix p' s' else None
  | String _ _, EmptyString => None
  end.

(** [s.split(sep, 1)] for a non-empty [sep]: the text before and after
    the first occurrence of [sep], or [s] alone when there is none. *)
Fixpoint split1_aux (sep s : string) : option (string * string) :=
  match drop_prefix sep s with
  | Some rest => Some ("", rest)
  | None =>
      match s with
      | EmptyString => None
      | String c s' =>
          match split1_aux sep s' with
          | Some (a, b) => Some (String c a, b)
          | None => None
          end
      end
  end.

Definition split1 (sep s : string) : list string :=
  match split1_aux sep s with
  | Some (a, b) => [a; b]
  | None => [s]
  end.

(** [sep in s] *)
Definition contains (sep s : string) : bool :=
  match split1_aux sep s with Some _ => true | None => false end.

(** [str(n)] for a non-negative integer. *)
Definition str_of_nat (n : nat) : string :=
  NilZero.string_of_uint (Nat.to_uint n).

(** [s.split(c)] on a one-character separator. *)
Fixpoint split_char (c : ascii) (s : string) : list string :=
  match s with
  | EmptyString => [""]
  | String d s' =>
      if Ascii.eqb d c then "" :: split_char c s'
      else match split_char c s' with
           | h :: t => String d h :: t
           | [] => [String d ""]
           end
  end.

Fixpoint all_chars (p : ascii -> bool) (s : string) : bool :=
  match s with
  | EmptyString => true
  | String c s' => p c && all_chars p s'
  end.

Definition newline_str : string := String newline "".

Definition is_empty (s : string) : bool :=
  match s with EmptyString => true | _ => false end.

End PyStr.

(* ================================================================= *)
(** ** The fragment of [re] used by [url_to_id] *)

Module Regex.
Import PyStr.

(** Pattern items, in the order they appear in a pattern. *)
Inductive item : Type :=
| Lit (c : ascii)      (* an ordinary or escaped character *)
| LazyGroup            (* (.+?)  capturing, one or more of any character
                          but newline, as few as possible *)
| Opt (c : ascii)      (* c?     zero or one, preferring one *)
| EndOfString.         (* $      at the end, or before a final newline *)

Definition at_end (s : string) : bool :=
  match s with
  | EmptyString => true
  | String c EmptyString => is_newline c
  | _ => false
  end.

(** [(.+?)] followed by the continuation [k]: grow the group one
    character at a time and stop at the first length for which the rest
    of the pattern matches. *)
Fixpoint lazy_any (k : string -> string -> option string)
         (acc s : string) : option string :=
  match s with
  | EmptyString => None
  | String c s' =>
      if is_newline c then None
      else
        let acc' := acc ++ String c "" in
        match k acc' s' with
        | Some g => Some g
        | None => lazy_any k acc' s'
        end
  end.

(** Backtracking match of the pattern [p] at the start of [s]; [g] is
    the text captured by group 1 so far, returned on success. *)
Fixpoint match_here (p : list item) (g s : string) : option string :=
  match p with
  | [] => Some g
  | Lit c :: p' =>
      match s with
      | String d s' => if Ascii.eqb c d then match_here p' g s' else None
      | EmptyString => None
      end
  | LazyGroup :: p' => lazy_any (match_here p') "" s
  | Opt c :: p' =>
      match s with
      | String d s' =>
          if Ascii.eqb c d then
            match match_here p' g s' with
            | Some r => Some r
            | None => match_here p' g s
            end
          else match_here p' g s
      | EmptyString => match_here p' g s
      end
  | EndOfString :: p' => if at_end s then match_here p' g s else None
  end.

(** [re.search(p, s)]: the match at the leftmost position that has one;
    the result is [match.group(1)]. *)
Fixpoint search (p : list item) (s : string) : option string :=
  match match_here p "" s with
  | Some g => Some g
  | None =>
      match s with
      | EmptyString => None
      | String _ s' => search p s'
      end
  end.

Definition lits (s : string) : list item :=
  map Lit (list_ascii_of_string s).

End Regex.

(* ================================================================= *)
(** ** Exceptions, values and collaborators *)

Module Py.

Inductive exn : Type :=
| UnboundLocalError (name : string)
| ValueError (msg : string)
| NotImplementedError (msg : string)
| Failure (msg : string).  (* raised by a collaborator or the query engine *)

Inductive result (A : Type) : Type :=
| Ok (a : A)
| Raise (e : exn).
Arguments Ok {A} a.
Arguments Raise {A} e.

(** The dict literal with keys "lang" and "text". *)
Record LocalizedText : Type := mkLT { lt_lang : string; lt_text : string }.

Definition lt_eqb (a b : LocalizedText) : bool :=
  String.eqb (lt_lang a) (lt_lang b) && String.eqb (lt_text a) (lt_text b).

(** The values stored in the metadata of a record. *)
Inductive value : Type :=
| VNone
| VStr (s : string)
| VInt (n : Z)
| VList (l : list string)
| VLocalized (l : list LocalizedText).

(** A dict with string keys, in insertion order. *)
Definition dict : Type := list (string * value).

Fixpoint dict_get (k : string) (d : dict) : option value :=
  match d with
  | [] => None
  | (k', v) :: d' => if String.eqb k k' then Some v else dict_get k d'
  end.

(** Modelled from the spec: [ResourceContent] is declared in
    catalog.common, outside the sources at hand; the record returned to
    the caller is a mapping with fixed keys, held in [metadata]. *)
Record ResourceContent : Type := mkResourceContent { metadata : dict }.

(** Modelled from the spec: [uniq] of common.models.misc is outside the
    sources at hand; it removes duplicates by exact (language, text)
    pair and the first occurrence wins. *)
Fixpoint uniq (ls : list LocalizedText) : list LocalizedText :=
  match ls with
  | [] => []
  | x :: rest => x :: filter (fun y => negb (lt_eqb x y)) (uniq rest)
  end.

(** A parsed document: the answer of [content.xpath(query)], a list of
    matched strings in document order, or the exception it raises. *)
Definition Document : Type := string -> result (list string).

(** A [datetime] object, of which the code uses the date.  The
    constructor of the library accepts a year from 1 to 9999, a month
    from 1 to 12 and a day that the month has. *)
Definition is_leap (y : nat) : bool :=
  Nat.eqb (y mod 4) 0 && (negb (Nat.eqb (y mod 100) 0) || Nat.eqb (y mod 400) 0).

Definition days_in_month (y m : nat) : nat :=
  match m with
  | 2 => if is_leap y then 29 else 28
  | 4 | 6 | 9 | 11 => 30
  | _ => 31
  end.

Definition valid_ymd (y m d : nat) : bool :=
  Nat.leb 1 y && Nat.leb y 9999 && Nat.leb 1 m && Nat.leb m 12
  && Nat.leb 1 d && Nat.leb d (days_in_month y m).

Record datetime : Type := mkDatetime {
  year : nat;
  month : nat;
  day : nat;
  date_ok : valid_ymd year month day = true
}.

(** A decimal number padded with zeros on the left up to [width]. *)
Definition zero_pad (width n : nat) : string :=
  let s := PyStr.str_of_nat n in
  String.concat "" (repeat "0" (width - String.length s)) ++ s.

(** The directives of [strftime] that the code uses, as the library
    reference gives them: %Y the year in four digits, %m the month and
    %d the day in two digits, %% a percent sign.  (The reference notes
    that the C library of some platforms does not pad a year below
    1000; the documented form is the one modelled.) *)
Definition directive (dt : datetime) (c : ascii) : string :=
  if Ascii.eqb c "Y" then zero_pad 4 (year dt)
  else if Ascii.eqb c "m" then zero_pad 2 (month dt)
  else if Ascii.eqb c "d" then zero_pad 2 (day dt)
  else if Ascii.eqb c "%" then "%"
  else String "%" (String c "").

(** [dt.strftime(fmt)] *)
Fixpoint strftime (dt : datetime) (fmt : string) : string :=
  match fmt with
  | EmptyString => ""
  | String c rest =>
      if Ascii.eqb c "%" then
        match rest with
        | String d rest' => directive dt d ++ strftime dt rest'
        | EmptyString => "%"
        end
      else String c (strftime dt rest)
  end.

(** The functions of other modules that the extraction calls. *)
Record Collaborators : Type := mkCollaborators {
  (* common.models.lang.detect_language *)
  detect_language : string -> result string;
  (* dateparser.parse: a datetime, None, or an exception *)
  dateparser_parse : string -> result (option datetime);
  (* list(set(xs)): the distinct elements in the order the set yields *)
  list_set : list string -> list string
}.

(** [enumerate(l)] *)
Fixpoint enumerate_from {A : Type} (i : nat) (l : list A) : list (nat * A) :=
  match l with
  | [] => []
  | x :: rest => (i, x) :: enumerate_from (S i) rest
  end.

Definition enumerate {A : Type} (l : list A) : list (nat * A) :=
  enumerate_from 0 l.

End Py.

(* ================================================================= *)
(** ** The adapter class *)

Module RateYourMusic.
Import PyStr Regex Py.

(** f"https://rateyourmusic.com/release/album/{id_value}/" *)
Definition id_to_url (id_value : string) : string :=
  "https://rateyourmusic.com/release/album/" ++ id_value ++ "/".

(** r'rateyourmusic\.com/release/album/(.+?)/?$' *)
Definition url_pattern : list item :=
  (lits "rateyourmusic.com/release/album/"
    ++ [LazyGroup; Opt "/"; EndOfString])%list.

Definition url_to_id (url : string) : option string :=
  match search url_pattern url with
  | Some g => Some (rstrip_char "/" g)
  | None => None
  end.

(** The identifier shape of URL_PATTERNS: two or three segments of
    [[\w\-]+] joined by "/". *)
Definition is_slug_char (c : ascii) : bool := is_word c || Ascii.eqb c "-".

Definition is_slug (s : string) : bool :=
  negb (is_empty s) && all_chars is_slug_char s.

Definition canonical_id (i : string) : bool :=
  let segs := split_char "/" i in
  (Nat.eqb (length segs) 2 || Nat.eqb (length segs) 3)
  && forallb is_slug segs.

Definition scrape : result ResourceContent :=
  Raise (NotImplementedError
    "RateYourMusic requires browser-side fetching. Please use the web interface to fetch content.").

(** *** Local variables of [_extract_from_html] *)

Record Locals : Type := mkLocals {
  localized_title : list LocalizedText;
  localized_desc : list LocalizedText;
  artist : list string;
  genre : list string;
  release_date : option string;
  track_list : list string;
  image_url : option string;
  duration : Z;
  title : option string;   (* [None]: not bound yet *)
  lang : option string     (* [None]: not bound yet *)
}.

(** Lines 78-85: the initial assignments; [title] and [lang] are bound
    only inside the [try] block. *)
Definition init_locals : Locals :=
  {| localized_title := []; localized_desc := []; artist := [];
     genre := []; release_date := None; track_list := [];
     image_url := None; duration := 0%Z; title := None; lang := None |}.

Definition set_title (t : string) (st : Locals) : Locals :=
  mkLocals (localized_title st) (localized_desc st) (artist st) (genre st)
    (release_date st) (track_list st) (image_url st) (duration st)
    (Some t) (lang st).

Definition set_lang (l : string) (st : Locals) : Locals :=
  mkLocals (localized_title st) (localized_desc st) (artist st) (genre st)
    (release_date st) (track_list st) (image_url st) (duration st)
    (title st) (Some l).

Definition set_localized_title (x : list LocalizedText) (st : Locals) : Locals :=
  mkLocals x (localized_desc st) (artist st) (genre st)
    (release_date st) (track_list st) (image_url st) (duration st)
    (title st) (lang st).

Definition set_localized_desc (x : list LocalizedText) (st : Locals) : Locals :=
  mkLocals (localized_title st) x (artist st) (genre st)
    (release_date st) (track_list st) (image_url st) (duration st)
    (title st) (lang st).

Definition set_artist (x : list string) (st : Locals) : Locals :=
  mkLocals (localized_title st) (localized_desc st) x (genre st)
    (release_date st) (track_list st) (image_url st) (duration st)
    (title st) (lang st).

Definition set_genre (x : list string) (st : Locals) : Locals :=
  mkLocals (localized_title st) (localized_desc st) (artist st) x
    (release_date st) (track_list st) (image_url st) (duration st)
    (title st) (lang st).

Definition set_release_date (x : option string) (st : Locals) : Locals :=
  mkLocals (localized_title st) (localized_desc st) (artist st) (genre st)
    x (track_list st) (image_url st) (duration st)
    (title st) (lang st).

Definition set_track_list (x : list string) (st : Locals) : Locals :=
  mkLocals (localized_title st) (localized_desc st) (artist st) (genre st)
    (release_date st) x (image_url st) (duration st)
    (title st) (lang st).

Definition set_image_url (x : option string) (st : Locals) : Locals :=
  mkLocals (localized_title st) (localized_desc st) (artist st) (genre st)
    (release_date st) (track_list st) x (duration st)
    (title st) (lang st).

(** *** The monad of the [try] block: state that survives a raise *)

Definition M (A : Type) : Type := Locals -> Locals * result A.

Definition ret {A : Type} (a : A) : M A := fun st => (st, Ok a).

Definition bind {A B : Type} (m : M A) (k : A -> M B) : M B :=
  fun st =>
    match m st with
    | (st', Ok a) => k a st'
    | (st', Raise e) => (st', Raise e)
    end.

Definition lift {A : Type} (r : result A) : M A := fun st => (st, r).

Definition modify (f : Locals -> Locals) : M unit := fun st => (f st, Ok tt).

Definition gets {A : Type} (f : Locals -> A) : M A := fun st => (st, Ok (f st)).

(** Reading a local variable that may not be bound. *)
Definition read (name : string) (f : Locals -> option string) : M string :=
  fun st =>
    match f st with
    | Some v => (st, Ok v)
    | None => (st, Raise (UnboundLocalError name))
    end.

Notation "x <- m ;; k" := (bind m (fun x => k))
  (at level 61, m at next level, right associativity).
Notation "m ;; k" := (bind m (fun _ => k))
  (at level 61, right associativity).

(** [a, b = parts] *)
Definition unpack2 (parts : list string) : M (string * string) :=
  match parts with
  | [a; b] => ret (a, b)
  | _ => lift (Raise (ValueError "unpack"))
  end.

(** [[a.strip() for a in elems if a.strip()]] *)
Definition stripped_nonblank (elems : list string) : list string :=
  map strip (filter (fun a => negb (is_empty (strip a))) elems).

Definition is_nil {A : Type} (l : list A) : bool :=
  match l with [] => true | _ => false end.

(** *** The queries *)

Definition q_og_title : string := "//meta[@property='og:title']/@content".
Definition q_title : string := "//title/text()".
Definition q_og_image : string := "//meta[@property='og:image']/@content".
Definition q_artist : string :=
  "//a[@class='artist']//text() | //div[@class='album_info']//a[contains(@href, '/artist/')]//text()".
Definition q_date : string :=
  "//th[contains(text(), 'Released')]/following-sibling::td//text() | //span[@class='release_date']//text()".
Definition q_genre : string :=
  "//a[@class='genre']//text() | //div[@class='release_pri_genres']//a//text()".
Definition q_tracks : string :=
  "//div[@class='tracklist']//div[@class='track']//span[@class='tracklist_title']//text() | //div[@id='tracks']//span[@class='rendered_text']//text()".
Definition q_og_description : string :=
  "//meta[@property='og:description']/@content".

Section Extraction.
Variable E : Collaborators.
Variable content : Document.

Definition xpath (q : string) : M (list string) := lift (content q).

(** Lines 90-109: title, artist taken from the title, language. *)
Definition title_step : M unit :=
  title_elem <- xpath q_og_title ;;
  match title_elem with
  | title_text :: _ =>
      if contains " - " title_text then
        parts <- unpack2 (split1 " - " title_text) ;;
        a <- gets artist ;;
        modify (set_artist (a ++ [strip (fst parts)])%list) ;;
        modify (set_title (strip (snd parts)))
      else modify (set_title (strip title_text))
  | [] =>
      title_elem <- xpath q_title ;;
      match title_elem with
      | t :: _ => modify (set_title (strip t))
      | [] => modify (set_title "Unknown Album")
      end
  end ;;
  t <- read "title" title ;;
  l <- lift (detect_language E t) ;;
  modify (set_lang l) ;;
  lt <- gets localized_title ;;
  modify (set_localized_title (lt ++ [mkLT l t])%list).

(** Lines 112-114: cover image. *)
Definition image_step : M unit :=
  image_elem <- xpath q_og_image ;;
  match image_elem with
  | u :: _ => modify (set_image_url (Some u))
  | [] => ret tt
  end.

(** Lines 120-122: artist names from the page. *)
Definition artist_step : M unit :=
  artist_elems <- xpath q_artist ;;
  a <- gets artist ;;
  if negb (is_nil artist_elems) && is_nil a then
    modify (set_artist (stripped_nonblank artist_elems))
  else ret tt.

(** Lines 125-131: release date. *)
Definition date_step : M unit :=
  date_elems <- xpath q_date ;;
  if negb (is_nil date_elems) then
    let date_text := join " " (stripped_nonblank date_elems) in
    dt <- lift (dateparser_parse E date_text) ;;
    match dt with
    | Some d => modify (set_release_date (Some (strftime d "%Y-%m-%d")))
    | None => ret tt
    end
  else ret tt.

(** Lines 134-136: genres. *)
Definition genre_step : M unit :=
  genre_elems <- xpath q_genre ;;
  if negb (is_nil genre_elems) then
    modify (set_genre (stripped_nonblank genre_elems))
  else ret tt.

(** Lines 139-141: track list. *)
Definition track_step : M unit :=
  track_elems <- xpath q_tracks ;;
  if negb (is_nil track_elems) then
    modify (set_track_list (stripped_nonblank track_elems))
  else ret tt.

(** Lines 144-148: description. *)
Definition desc_step : M unit :=
  desc_elems <- xpath q_og_description ;;
  match desc_elems with
  | d :: _ =>
      let desc_text := strip d in
      if negb (is_empty desc_text) then
        l <- read "lang" lang ;;
        ld <- gets localized_desc ;;
        modify (set_localized_desc (ld ++ [mkLT l desc_text])%list)
      else ret tt
  | [] => ret tt
  end.

(** The statements of the [try] block, in order. *)
Definition steps : list (M unit) :=
  [title_step; image_step; artist_step; date_step; genre_step;
   track_step; desc_step].

Fixpoint run_steps (l : list (M unit)) : M unit :=
  match l with
  | [] => ret tt
  | s :: rest => s ;; run_steps rest
  end.

Definition try_body : M unit := run_steps steps.

(** [[f"{i+1}. {t}" for i, t in enumerate(track_list)]] *)
Definition numbered (l : list string) : list string :=
  map (fun it => str_of_nat (fst it + 1) ++ ". " ++ snd it) (enumerate l).

Definition opt_value (o : option string) : value :=
  match o with Some s => VStr s | None => VNone end.

Definition default_title : list LocalizedText := [mkLT "en" "Unknown Album"].

(** Lines 155-167: the record built from the local variables.  The
    dict literal reads [title] first, which raises when the variable
    was never bound. *)
Definition build (st : Locals) : result ResourceContent :=
  match title st with
  | None => Raise (UnboundLocalError "title")
  | Some t =>
      Ok (mkResourceContent
        [ ("title", VStr (if is_empty t then "Unknown Album" else t));
          ("localized_title",
            VLocalized (if is_nil (localized_title st) then default_title
                        else uniq (localized_title st)));
          ("localized_description", VLocalized (uniq (localized_desc st)));
          ("artist",
            VList (if is_nil (artist st) then [] else list_set E (artist st)));
          ("genre",
            VList (if is_nil (genre st) then [] else list_set E (genre st)));
          ("release_date", opt_value (release_date st));
          ("track_list",
            if is_nil (track_list st) then VNone
            else VStr (join newline_str (numbered (track_list st))));
          ("duration",
            if (0 <? duration st)%Z then VInt (duration st) else VNone);
          ("cover_image_url", opt_value (image_url st)) ])
  end.

(** Lines 75-168: run the [try] block, swallow whatever it raised,
    build the record from the locals it left. *)
Definition _extract_from_html : result ResourceContent :=
  build (fst (try_body init_locals)).

End Extraction.

End RateYourMusic.

(* ================================================================= *)
(** ** The URL patterns of the class *)

Module UrlPatterns.
Import PyStr RateYourMusic.

(** Pattern items of URL_PATTERNS. *)
Inductive pitem : Type :=
| PLit (c : ascii)     (* an ordinary or escaped character *)
| PSlug                (* ([\w\-]+)  one or more, as many as possible *)
| POpt (c : ascii).    (* c?         zero or one, preferring one *)

(** [([\w\-]+)] followed by the continuation [k]: take a character of
    the class, then go on with the longer alternative first. *)
Fixpoint slug_plus (k : string -> bool) (s : string) : bool :=
  match s with
  | EmptyString => false
  | String c s' =>
      if is_slug_char c then slug_plus k s' || k s' else false
  end.

(** Backtracking match of [p] at the start of [s]; [fin] decides what
    may follow the match. *)
Fixpoint pmatch (fin : string -> bool) (p : list pitem) (s : string) : bool :=
  match p with
  | [] => fin s
  | PLit c :: p' =>
      match s with
      | String d s' => Ascii.eqb c d && pmatch fin p' s'
      | EmptyString => false
      end
  | PSlug :: p' => slug_plus (pmatch fin p') s
  | POpt c :: p' =>
      match s with
      | String d s' =>
          if Ascii.eqb c d then pmatch fin p' s' || pmatch fin p' s
          else pmatch fin p' s
      | EmptyString => pmatch fin p' s
      end
  end.

(** [re.match(p, s) is not None]: the pattern matches at the start. *)
Definition re_match (p : list pitem) (s : string) : bool :=
  pmatch (fun _ => true) p s.

(** [re.fullmatch(p, s) is not None]: the pattern matches all of [s]. *)
Definition re_fullmatch (p : list pitem) (s : string) : bool :=
  pmatch is_empty p s.

Definition plits (s : string) : list pitem :=
  map PLit (list_ascii_of_string s).

(** Lines 27-30. *)
Definition URL_PATTERNS : list (list pitem) :=
  [ (plits "https://rateyourmusic.com/release/album/"
       ++ [PSlug; PLit "/"; PSlug; POpt "/"])%list;
    (plits "https://rateyourmusic.com/release/album/"
       ++ [PSlug; PLit "/"; PSlug; PLit "/"; PSlug; POpt "/"])%list ].

End UrlPatterns.

Import PyStr Regex Py RateYourMusic UrlPatterns.

(* ================================================================= *)
(** ** Vocabulary of the statements *)

Module Props.

(** A field of the returned record. *)
Definition field (k : string) (r : ResourceContent) : option value :=
  dict_get k (metadata r).



(** A computation leaves the local variable [f] as it found it, whether
    it returns or raises. *)
Definition preserves {X A : Type} (f : Locals -> X) (m : M A) : Prop :=
  forall st, f (fst (m st)) = f st.

(** A computation maintains the property [P] of the local variables,
    whether it returns or raises. *)
Definition maintains {A : Type} (P : Locals -> Prop) (m : M A) : Prop :=
  forall st, P st -> P (fst (m st)).


(** The track list the track rule derives from the matched strings:
    trim, drop the blank ones, number from 1, join with newlines;
    nothing when no track remains. *)
Definition track_rule (ms : list string) : value :=
  match stripped_nonblank ms with
  | [] => VNone
  | ts => VStr (join newline_str (numbered ts))
  end.


(** The value of the track_list key for a given list of tracks. *)
Definition track_value (l : list string) : value :=
  if is_nil l then VNone else VStr (join newline_str (numbered l)).

(** What the track variable may hold at any point of the extraction. *)
Definition track_inv (content : Document) (st : Locals) : Prop :=
  track_list st = []
  \/ exists ms, content q_tracks = Ok ms
       /\ track_value (track_list st) = track_rule ms.

(** A step that returns, whatever the local variables are. *)
Definition completes (m : M unit) : Prop :=
  forall st, exists st', m st = (st', Ok tt).

(** The collaborators as their interfaces describe them: the query
    engine answers every query, the language detector returns a code,
    the date parser returns a date or None. *)
Definition queries_answer (content : Document) : Prop :=
  forall q, exists ms, content q = Ok ms.

Definition detector_returns (E : Collaborators) : Prop :=
  forall t, exists l, detect_language E t = Ok l.

Definition parser_returns (E : Collaborators) : Prop :=
  forall t, exists o, dateparser_parse E t = Ok o.

End Props.

(* ================================================================= *)
(** ** The words of the specification *)

(** Definitions that follow the specification, not the code: what it is
    to trim a text, to discard the blank ones, to join with a separator,
    to write a date as YYYY-MM-DD and to number lines from 1.  They share
    with the model only the table of white space and the decimal
    writing of numbers. *)

Module SpecWords.

(** White space: TAB, LF, VT, FF, CR, FS, GS, RS, US, SPACE, NEL and
    NBSP. *)
Definition white_space (c : ascii) : bool :=
  existsb (Nat.eqb (nat_of_ascii c))
    [9; 10; 11; 12; 13; 28; 29; 30; 31; 32; 133; 160].

(** A blank text holds white space only. *)
Fixpoint blank (s : string) : bool :=
  match s with
  | EmptyString => true
  | String c s' => white_space c && blank s'
  end.

(** The newline, as a text. *)
Definition line_feed : string := String "010"%char "".

(** No white space at the start, none at the end. *)
Definition starts_clean (t : string) : bool :=
  match t with
  | String c _ => negb (white_space c)
  | EmptyString => true
  end.

Definition ends_clean (t : string) : Prop :=
  forall r c, t = r ++ String c "" -> white_space c = false.

(** [t] is [s] without the white space at its two ends. *)
Definition trim_of (s t : string) : Prop :=
  exists a b,
    s = a ++ t ++ b
    /\ blank a = true /\ blank b = true
    /\ starts_clean t = true /\ ends_clean t.

(** [ts] lists, in order, the trimmed texts of the matches that are not
    blank. *)
Inductive kept_trimmed : list string -> list string -> Prop :=
| kept_nil : kept_trimmed [] []
| kept_blank (s : string) (ms ts : list string) :
    blank s = true ->
    kept_trimmed ms ts -> kept_trimmed (s :: ms) ts
| kept_text (s t : string) (ms ts : list string) :
    trim_of s t -> t <> "" ->
    kept_trimmed ms ts -> kept_trimmed (s :: ms) (t :: ts).

(** [text] is the texts of [l] with one [sep] between neighbours. *)
Inductive joined (sep : string) : list string -> string -> Prop :=
| joined_nil : joined sep [] ""
| joined_one (x : string) : joined sep [x] x
| joined_more (x y : string) (l : list string) (text : string) :
    joined sep (y :: l) text ->
    joined sep (x :: y :: l) (x ++ sep ++ text).




(** Line [i], counted from 0, is the ordinal [i+1], a dot, a space and
    the [i]-th track. *)
Definition numbered_lines (ts lines : list string) : Prop :=
  length lines = length ts
  /\ forall i t, nth_error ts i = Some t ->
       nth_error lines i = Some (str_of_nat (i + 1) ++ ". " ++ t).

(** The track list that the kept tracks [ts] stand for: none without a
    track, otherwise the numbered lines joined by newlines. *)
Definition track_list_of (ts : list string) (v : value) : Prop :=
  match ts with
  | [] => v = VNone
  | _ :: _ =>
      exists lines text,
        numbered_lines ts lines /\ joined line_feed lines text
        /\ v = VStr text
  end.

(** The description entry that the matches [ds] of the og:description
    query stand for when the variable [lang] holds [l]: the first match,
    trimmed, tagged [l]; none without a match or for a blank one. *)
Definition description_of (l : string) (ds : list string)
    (lds : list LocalizedText) : Prop :=
  match ds with
  | [] => lds = []
  | d :: _ =>
      (blank d = true /\ lds = [])
      \/ exists t, trim_of d t /\ t <> "" /\ lds = [mkLT l t]
  end.

End SpecWords.

(* ================================================================= *)
(** ** Sample documents and collaborators *)

Module Samples.

(** A parser that knows one spelling of one date. *)
Definition parse_known (s : string) : result (option datetime) :=
  if String.eqb s "Released August 17, 1959"
  then Ok (Some (mkDatetime 1959 8 17 eq_refl))
  else Ok None.

Definition parse_raising (s : string) : result (option datetime) :=
  Raise (Failure "dateparser").

Definition detect_en (s : string) : result string := Ok "en".

(** A detector that does not recognise anything. *)
Definition detect_x (s : string) : result string := Ok "x".

(** A detector that tells two texts apart. *)
Definition detect_fr_en (s : string) : result string :=
  if String.eqb s "Un album de jazz modal" then Ok "fr" else Ok "en".

Definition collab (detect : string -> result string)
    (parse : string -> result (option datetime)) : Collaborators :=
  mkCollaborators detect parse (nodup string_dec).

(** The document that answers the listed queries and has no match for
    any other. *)
Definition doc_of (answers : list (string * list string)) : Document :=
  fun q =>
    match find (fun kv => String.eqb q (fst kv)) answers with
    | Some kv => Ok (snd kv)
    | None => Ok []
    end.

(** The document [d] with a query engine that fails on [q]. *)
Definition failing_on (q : string) (d : Document) : Document :=
  fun q' => if String.eqb q' q then Raise (Failure "xpath") else d q'.

Definition kind_of_blue : Document :=
  doc_of [ (q_og_title, ["Miles Davis - Kind of Blue"]);
           (q_title, ["Kind of Blue by Miles Davis - RYM"]);
           (q_og_image, ["https://e.snmc.io/kob.jpg"]);
           (q_date, ["Released"; " "; "August 17, 1959 "]);
           (q_genre, ["Jazz"; "Modal Jazz"]);
           (q_tracks, ["Intro"; " Song A "; "  "; "Song B"]);
           (q_og_description, ["Un album de jazz modal"]) ].

Definition no_anchor : Document := doc_of [].



Definition spaced_tracks : Document :=
  doc_of [ (q_og_title, ["Album"]);
           (q_tracks, [" Intro"; "  "; "Song A "; "Song B"]) ].

Definition spaced_description : Document :=
  doc_of [ (q_og_title, ["Kind of Blue"]);
           (q_og_description, ["  Un album de jazz modal "; "ignored"]) ].

Definition blank_og_title : Document :=
  doc_of [ (q_og_title, ["   "]); (q_title, ["Page Title"]) ].

Definition page_title_only : Document :=
  doc_of [ (q_title, ["Page Title"]) ].

Definition three_tracks : Document :=
  doc_of [ (q_og_title, ["Album"]);
           (q_tracks, ["Intro"; "Song A"; "Song B"]) ].

End Samples.

(* ================================================================= *)
(** ** Vocabulary of the further properties *)

Module MoreProps.

(** What may follow the captured group in a URL: nothing or one slash,
    each possibly followed by one final newline. *)
Definition tail_ok (s : string) : bool :=
  at_end s
  || match s with
     | String c s' => Ascii.eqb "/" c && at_end s'
     | EmptyString => false
     end.

Definition no_newline (s : string) : bool :=
  all_chars (fun c => negb (is_newline c)) s.

(** The text does not end in a slash. *)
Definition no_final_slash (s : string) : Prop :=
  forall r c, s = r ++ String c "" -> Ascii.eqb "/" c = false.

(** The text has no surrounding white space. *)
Definition trimmed (s : string) : Prop := strip s = s.

(** The first match of a query, which is all that the meta-tag steps
    look at. *)
Definition first_match (r : result (list string)) : result (option string) :=
  match r with
  | Ok ms => Ok (hd_error ms)
  | Raise e => Raise e
  end.

(** The queries of which only the first match is used. *)
Definition is_meta_query (q : string) : bool :=
  String.eqb q q_og_title || String.eqb q q_title
  || String.eqb q q_og_image || String.eqb q q_og_description.

(** The exception was raised by the query engine, the language detector
    or the date parser. *)
Definition raised_outside (E : Collaborators) (content : Document)
    (e : exn) : Prop :=
  (exists q, content q = Raise e)
  \/ (exists t, detect_language E t = Raise e)
  \/ (exists t, dateparser_parse E t = Raise e).

(** [list(set(xs))] yields elements of [xs] only. *)
Definition list_set_sound (E : Collaborators) : Prop :=
  forall l x, In x (list_set E l) -> In x l.

End MoreProps.

Import Props SpecWords Samples MoreProps.


(* ================================================================= *)
(** ** Sample runs *)

Example url_to_id_trailing_slash :
  url_to_id "https://rateyourmusic.com/release/album/miles-davis/kind-of-blue/"
  = Some "miles-davis/kind-of-blue".
Proof. reflexivity. Qed.

Example url_to_id_no_trailing_slash :
  url_to_id "https://rateyourmusic.com/release/album/miles-davis/kind-of-blue"
  = Some "miles-davis/kind-of-blue".
Proof. reflexivity. Qed.

Example url_to_id_with_version :
  url_to_id (id_to_url "miles-davis/kind-of-blue/2")
  = Some "miles-davis/kind-of-blue/2".
Proof. reflexivity. Qed.

Example url_to_id_other_site :
  url_to_id "https://example.com/release/album/a/b/" = None.
Proof. reflexivity. Qed.

Example strip_both_ends : strip "  Kind of Blue  " = "Kind of Blue".
Proof. reflexivity. Qed.

Example split1_first_separator :
  split1 " - " "Miles Davis - Kind of Blue - Live"
  = ["Miles Davis"; "Kind of Blue - Live"].
Proof. reflexivity. Qed.

Example scrape_raises : exists msg, scrape = Raise (NotImplementedError msg).
Proof. eexists. reflexivity. Qed.

Example extract_kind_of_blue :
  _extract_from_html (collab detect_en parse_known) kind_of_blue
  = Ok (mkResourceContent
      [ ("title", VStr "Kind of Blue");
        ("localized_title", VLocalized [mkLT "en" "Kind of Blue"]);
        ("localized_description",
          VLocalized [mkLT "en" "Un album de jazz modal"]);
        ("artist", VList ["Miles Davis"]);
        ("genre", VList ["Jazz"; "Modal Jazz"]);
        ("release_date", VStr "1959-08-17");
        ("track_list",
          VStr ("1. Intro" ++ newline_str ++ "2. Song A" ++ newline_str
                ++ "3. Song B"));
        ("duration", VNone);
        ("cover_image_url", VStr "https://e.snmc.io/kob.jpg") ]).
Proof. vm_compute. reflexivity. Qed.

Example extract_page_title_only :
  exists r,
    _extract_from_html (collab detect_en parse_known) page_title_only = Ok r
    /\ field "title" r = Some (VStr "Page Title").
Proof. eexists. split; [vm_compute; reflexivity | reflexivity]. Qed.

(* ================================================================= *)
(** ** Strings and the regular expression *)

Lemma append_nil_r (s : string) : s ++ "" = s.
Proof. induction s as [|c s IH]; simpl; [reflexivity | now rewrite IH]. Qed.

Lemma append_assoc (a b c : string) : (a ++ b) ++ c = a ++ b ++ c.
Proof. induction a as [|x a IH]; simpl; [reflexivity | now rewrite IH]. Qed.

Lemma append_snoc_nonempty (r : string) (c : ascii) : r ++ String c "" <> "".
Proof. destruct r; simpl; discriminate. Qed.

Lemma at_end_snoc_slash (r : string) : at_end (r ++ "/") = false.
Proof.
  destruct r as [|d r]; simpl; [reflexivity|].
  destruct r as [|d' r]; simpl; reflexivity.
Qed.

Lemma at_end_cons_snoc (c : ascii) (r : string) :
  at_end (String c (r ++ "/")) = false.
Proof. simpl. destruct r; reflexivity. Qed.

(** The tail [/?$] of the pattern rejects any text of two or more
    characters that ends in a slash. *)
Lemma tail_rejects (g : string) (c : ascii) (r : string) :
  match_here [Opt "/"; EndOfString] g (String c (r ++ "/")) = None.
Proof.
  cbn [match_here].
  rewrite at_end_snoc_slash, at_end_cons_snoc.
  destruct (Ascii.eqb "/" c); reflexivity.
Qed.

Lemma tail_accepts_slash (g : string) :
  match_here [Opt "/"; EndOfString] g "/" = Some g.
Proof. reflexivity. Qed.

(** The lazy group takes the whole of [i] when [i] is followed by one
    final slash. *)
Lemma lazy_any_whole (i acc : string) :
  i <> "" ->
  all_chars (fun c => negb (is_newline c)) i = true ->
  lazy_any (match_here [Opt "/"; EndOfString]) acc (i ++ "/") = Some (acc ++ i).
Proof.
  revert acc. induction i as [|c i IH]; intros acc Hne Hnl; [congruence|].
  simpl in Hnl. apply andb_true_iff in Hnl as [Hc Hi].
  simpl append. cbn [lazy_any].
  apply negb_true_iff in Hc. rewrite Hc.
  destruct i as [|d i].
  - simpl append. rewrite tail_accepts_slash. reflexivity.
  - change (String d i ++ "/") with (String d (i ++ "/")).
    rewrite tail_rejects.
    change (String d (i ++ "/")) with (String d i ++ "/").
    rewrite IH by (auto; discriminate).
    rewrite append_assoc. reflexivity.
Qed.

Lemma match_here_lits (l : string) (p : list item) (g s : string) :
  match_here (lits l ++ p) g (l ++ s) = match_here p g s.
Proof.
  induction l as [|c l IH]; [reflexivity|].
  unfold lits in *. simpl. rewrite Ascii.eqb_refl. exact IH.
Qed.

Lemma rstrip_by_fixed (p : ascii -> bool) (s : string) :
  (forall r c, s = r ++ String c "" -> p c = false) ->
  rstrip_by p s = s.
Proof.
  induction s as [|c s IH]; intros H; [reflexivity|].
  simpl. rewrite IH.
  - destruct s as [|d s]; [|reflexivity].
    rewrite (H "" c eq_refl). reflexivity.
  - intros r d ->. apply (H (String c r) d). reflexivity.
Qed.

(** What the segments of a canonical identifier say about its text. *)
Lemma split_char_shape (s : string) :
  match split_char "/" s with
  | h :: t =>
      all_chars is_slug_char h = true -> forallb is_slug t = true ->
      all_chars (fun c => negb (is_newline c)) s = true
      /\ (forall r c, s = r ++ String c "" -> Ascii.eqb "/" c = false)
  | [] => False
  end.
Proof.
  induction s as [|d s IH].
  - simpl. intros _ _. split; [reflexivity|].
    intros r c H. destruct r; discriminate.
  - cbn [split_char]. destruct (Ascii.eqb d "/") eqn:Hd.
    + apply Ascii.eqb_eq in Hd. subst d.
      destruct (split_char "/" s) as [|h t] eqn:Hs; [contradiction|].
      intros _ Ht. simpl in Ht. apply andb_true_iff in Ht as [Hh Ht].
      unfold is_slug in Hh. apply andb_true_iff in Hh as [Hne Hh].
      destruct (IH Hh Ht) as [Hnl Hlast]. split.
      * cbn [all_chars]. rewrite Hnl. reflexivity.
      * intros r c H. destruct r as [|x r]; simpl in H.
        -- injection H as _ H. subst s. simpl in Hs.
           injection Hs as <- _. discriminate.
        -- injection H as _ H. eapply Hlast; eauto.
    + destruct (split_char "/" s) as [|h t] eqn:Hs; [contradiction|].
      intros Hh Ht. simpl in Hh. apply andb_true_iff in Hh as [Hdc Hh].
      destruct (IH Hh Ht) as [Hnl Hlast]. split.
      * cbn [all_chars]. rewrite Hnl, andb_true_r.
        destruct (is_newline d) eqn:Hn; [|reflexivity].
        apply Ascii.eqb_eq in Hn. subst d. discriminate.
      * intros r c H. destruct r as [|x r]; simpl in H.
        -- injection H as -> _. rewrite Ascii.eqb_sym. exact Hd.
        -- injection H as _ H. eapply Hlast; eauto.
Qed.

Lemma canonical_id_text (i : string) :
  canonical_id i = true ->
  i <> ""
  /\ all_chars (fun c => negb (is_newline c)) i = true
  /\ (forall r c, i = r ++ String c "" -> Ascii.eqb "/" c = false).
Proof.
  unfold canonical_id. intros H. apply andb_true_iff in H as [_ H].
  pose proof (split_char_shape i) as S.
  destruct (split_char "/" i) as [|h t] eqn:Hs; [contradiction|].
  simpl in H. apply andb_true_iff in H as [Hh Ht].
  unfold is_slug in Hh. apply andb_true_iff in Hh as [Hne Hh].
  destruct (S Hh Ht) as [Hnl Hlast]. split; [|split]; auto.
  intros ->. simpl in Hs. injection Hs as <- _. discriminate.
Qed.

Lemma search_here (p : list item) (s g : string) :
  match_here p "" s = Some g -> search p s = Some g.
Proof. intros H. destruct s; simpl; rewrite H; reflexivity. Qed.

Lemma search_skip_lit (a c : ascii) (p : list item) (s : string) :
  Ascii.eqb a c = false ->
  search (Lit a :: p) (String c s) = search (Lit a :: p) s.
Proof. intros H. cbn [search match_here]. rewrite H. reflexivity. Qed.

(** [url_to_id] undoes [id_to_url] on any text that is not empty, has no
    newline and does not end in a slash. *)
Lemma url_to_id_id_to_url (i : string) :
  i <> "" ->
  all_chars (fun c => negb (is_newline c)) i = true ->
  (forall r c, i = r ++ String c "" -> Ascii.eqb "/" c = false) ->
  url_to_id (id_to_url i) = Some i.
Proof.
  intros Hne Hnl Hlast.
  unfold url_to_id, id_to_url.
  change ("https://rateyourmusic.com/release/album/" ++ i ++ "/")
    with ("https://" ++ "rateyourmusic.com/release/album/" ++ i ++ "/").
  assert (Hm : match_here url_pattern ""
                 ("rateyourmusic.com/release/album/" ++ i ++ "/") = Some i).
  { unfold url_pattern. rewrite match_here_lits.
    cbn [match_here]. rewrite lazy_any_whole by assumption. reflexivity. }
  assert (Hs : search url_pattern
                 ("https://" ++ "rateyourmusic.com/release/album/" ++ i ++ "/")
               = Some i).
  { simpl append at 1.
    change url_pattern
      with (Lit "r" :: (lits "ateyourmusic.com/release/album/"
                          ++ [LazyGroup; Opt "/"; EndOfString])%list) at 1.
    rewrite !search_skip_lit by reflexivity.
    apply search_here. exact Hm. }
  rewrite Hs. unfold rstrip_char. rewrite rstrip_by_fixed; auto.
Qed.

(* ================================================================= *)
(** ** The monad and the frame of each step *)

Section MonadFacts.
Context {A B X : Type}.

Lemma bind_ok (m : M A) (k : A -> M B) (st st' : Locals) (a : A) :
  m st = (st', Ok a) -> bind m k st = k a st'.
Proof. intros H. unfold bind. rewrite H. reflexivity. Qed.


Lemma preserves_bind (f : Locals -> X) (m : M A) (k : A -> M B) :
  preserves f m -> (forall a, preserves f (k a)) -> preserves f (bind m k).
Proof.
  intros Hm Hk st. unfold bind. specialize (Hm st).
  destruct (m st) as [st' [a|e]]; simpl in *.
  - rewrite Hk. exact Hm.
  - exact Hm.
Qed.

Lemma preserves_ret (f : Locals -> X) (a : A) : preserves f (ret a).
Proof. intros st. reflexivity. Qed.

Lemma preserves_lift (f : Locals -> X) (r : result A) : preserves f (lift r).
Proof. intros st. reflexivity. Qed.

Lemma preserves_gets (f : Locals -> X) (g : Locals -> A) : preserves f (gets g).
Proof. intros st. reflexivity. Qed.

Lemma preserves_read (f : Locals -> X) (n : string) (g : Locals -> option string) :
  preserves f (read n g).
Proof. intros st. unfold read. destruct (g st); reflexivity. Qed.

Lemma preserves_modify (f : Locals -> X) (g : Locals -> Locals) :
  (forall st, f (g st) = f st) -> preserves f (modify g).
Proof. intros H st. simpl. apply H. Qed.

Lemma maintains_bind (P : Locals -> Prop) (m : M A) (k : A -> M B) :
  maintains P m -> (forall a, maintains P (k a)) -> maintains P (bind m k).
Proof.
  intros Hm Hk st HP. unfold bind. specialize (Hm st HP).
  destruct (m st) as [st' [a|e]]; simpl in *.
  - apply Hk. exact Hm.
  - exact Hm.
Qed.

Lemma preserves_maintains (f : Locals -> X) (Q : X -> Prop) (m : M A) :
  preserves f m -> maintains (fun st => Q (f st)) m.
Proof. intros H st HQ. rewrite H. exact HQ. Qed.

Lemma bind_then_preserves (f : Locals -> X) (m : M A) (k : A -> M B) :
  (forall a, preserves f (k a)) ->
  forall st, f (fst (bind m k st)) = f (fst (m st)).
Proof.
  intros Hk st. unfold bind.
  destruct (m st) as [st' [a|e]]; simpl; [apply Hk | reflexivity].
Qed.

End MonadFacts.

(** Decompose a frame goal along the structure of the computation. *)
Ltac frame :=
  repeat first
    [ apply preserves_ret
    | apply preserves_lift
    | apply preserves_gets
    | apply preserves_read
    | apply preserves_modify; intros ?; reflexivity
    | apply preserves_bind; [| intros ?]
    | progress unfold xpath, unpack2
    | match goal with
      | |- preserves _ (match ?x with _ => _ end) => destruct x
      end ].

Section StepFacts.
Variable E : Collaborators.
Variable content : Document.

Lemma run_steps_preserves {X : Type} (f : Locals -> X) (l : list (M unit)) :
  Forall (preserves f) l -> preserves f (run_steps l).
Proof.
  induction 1 as [|s l Hs _ IH]; simpl.
  - apply preserves_ret.
  - apply preserves_bind; auto.
Qed.

Lemma run_steps_maintains (P : Locals -> Prop) (l : list (M unit)) :
  Forall (maintains P) l -> maintains P (run_steps l).
Proof.
  induction 1 as [|s l Hs _ IH]; simpl.
  - intros st H. exact H.
  - apply maintains_bind; auto.
Qed.

Lemma run_steps_app (l1 l2 : list (M unit)) (st : Locals) :
  run_steps (l1 ++ l2) st
  = match run_steps l1 st with
    | (st', Ok _) => run_steps l2 st'
    | (st', Raise e) => (st', Raise e)
    end.
Proof.
  revert st. induction l1 as [|s l1 IH]; intros st; simpl.
  - reflexivity.
  - unfold bind. destruct (s st) as [st' [[]|e]]; [apply IH | reflexivity].
Qed.

(** The [duration] accumulator is never assigned. *)
Lemma steps_preserve_duration :
  Forall (preserves duration) (steps E content).
Proof.
  unfold steps.
  repeat constructor;
    [ unfold title_step | unfold image_step | unfold artist_step
    | unfold date_step | unfold genre_step | unfold track_step
    | unfold desc_step ]; frame.
Qed.

(** The steps after the title step. *)
Lemma later_steps_preserve_title :
  Forall (preserves title)
    [image_step content; artist_step content; date_step E content;
     genre_step content; track_step content; desc_step content].
Proof.
  repeat constructor;
    unfold image_step, artist_step, date_step, genre_step, track_step,
      desc_step; frame.
Qed.

Lemma later_steps_preserve_localized_title :
  Forall (preserves localized_title)
    [image_step content; artist_step content; date_step E content;
     genre_step content; track_step content; desc_step content].
Proof.
  repeat constructor;
    unfold image_step, artist_step, date_step, genre_step, track_step,
      desc_step; frame.
Qed.

Lemma later_steps_preserve_lang :
  Forall (preserves lang)
    [image_step content; artist_step content; date_step E content;
     genre_step content; track_step content; desc_step content].
Proof.
  repeat constructor;
    unfold image_step, artist_step, date_step, genre_step, track_step,
      desc_step; frame.
Qed.

Lemma contains_split1 (sep s : string) :
  contains sep s = true -> exists a b, split1 sep s = [a; b].
Proof.
  unfold contains, split1.
  destruct (split1_aux sep s) as [[a b]|]; [eauto | discriminate].
Qed.

(** What the title step leaves behind when it completes. *)
Lemma title_step_ok (st st' : Locals) :
  title_step E content st = (st', Ok tt) ->
  exists t l,
    title st' = Some t /\ lang st' = Some l
    /\ detect_language E t = Ok l
    /\ localized_title st' = (localized_title st ++ [mkLT l t])%list.
Proof.
  unfold title_step, xpath, lift, bind, gets, modify, read, ret.
  destruct (content q_og_title) as [[|t ts]|e]; [| |discriminate].
  - destruct (content q_title) as [[|t ts]|e]; [| |discriminate];
      simpl; (destruct (detect_language E _) as [l|e] eqn:Hl; [|discriminate]);
      intros H; injection H as <-; simpl; eauto 10.
  - destruct (contains " - " t) eqn:Hc.
    + destruct (contains_split1 _ _ Hc) as (a & b & ->). simpl.
      destruct (detect_language E _) as [l|e] eqn:Hl; [|discriminate].
      intros H; injection H as <-; simpl; eauto 10.
    + simpl. destruct (detect_language E _) as [l|e] eqn:Hl; [|discriminate].
      intros H; injection H as <-; simpl; eauto 10.
Qed.

(** When the title step raises, no title entry has been added. *)
Lemma title_step_raise (st st' : Locals) (e : exn) :
  title_step E content st = (st', Raise e) ->
  localized_title st' = localized_title st
  /\ localized_desc st' = localized_desc st.
Proof.
  unfold title_step, xpath, lift, bind, gets, modify, read, ret.
  destruct (content q_og_title) as [[|t ts]|e0].
  - destruct (content q_title) as [[|t ts]|e1]; simpl;
      try (destruct (detect_language E _) as [l|e2]; [discriminate|]);
      intros H; injection H as <- _; simpl; auto.
  - destruct (contains " - " t) eqn:Hc.
    + destruct (contains_split1 _ _ Hc) as (a & b & ->). simpl.
      destruct (detect_language E _) as [l|e2]; [discriminate|].
      intros H; injection H as <- _; simpl; auto.
    + simpl. destruct (detect_language E _) as [l|e2]; [discriminate|].
      intros H; injection H as <- _; simpl; auto.
  - intros H; injection H as <- _; simpl; auto.
Qed.

(** The title is bound as soon as the title queries answer. *)
Lemma title_step_binds_title (st : Locals) :
  (exists t ts, content q_og_title = Ok (t :: ts))
  \/ (content q_og_title = Ok [] /\ exists ms, content q_title = Ok ms) ->
  title (fst (title_step E content st)) <> None.
Proof.
  unfold title_step, xpath, lift, bind, gets, modify, read, ret.
  intros [(t & ts & ->) | (-> & ms & ->)].
  - destruct (contains " - " t) eqn:Hc.
    + destruct (contains_split1 _ _ Hc) as (a & b & ->). simpl.
      destruct (detect_language E _); simpl; discriminate.
    + simpl. destruct (detect_language E _); simpl; discriminate.
  - destruct ms as [|t ts]; simpl;
      destruct (detect_language E _); simpl; discriminate.
Qed.

Lemma try_body_unfold (st : Locals) :
  try_body E content st
  = match title_step E content st with
    | (st', Ok _) =>
        run_steps
          [image_step content; artist_step content; date_step E content;
           genre_step content; track_step content; desc_step content] st'
    | (st', Raise e) => (st', Raise e)
    end.
Proof. reflexivity. Qed.

Lemma try_body_title (st : Locals) :
  title (fst (try_body E content st)) = title (fst (title_step E content st)).
Proof.
  rewrite try_body_unfold.
  destruct (title_step E content st) as [st' [[]|e]]; [|reflexivity].
  apply (run_steps_preserves title), later_steps_preserve_title.
Qed.

Lemma build_returns (st : Locals) :
  title st <> None -> exists r, build E st = Ok r.
Proof.
  unfold build. destruct (title st); [eauto | congruence].
Qed.

(** A record is returned whenever the title queries answer, whatever
    any later query or collaborator does. *)
Lemma record_returned_when_title_queries_answer :
  (exists t ts, content q_og_title = Ok (t :: ts))
  \/ (content q_og_title = Ok [] /\ exists ms, content q_title = Ok ms) ->
  exists r, _extract_from_html E content = Ok r.
Proof.
  intros H. unfold _extract_from_html. apply build_returns.
  rewrite try_body_title. now apply title_step_binds_title.
Qed.

(** A failure of the first title query leaves [title] unbound, and the
    dict literal of line 157 raises. *)
Lemma og_title_failure_escapes (e : exn) :
  content q_og_title = Raise e ->
  _extract_from_html E content = Raise (UnboundLocalError "title").
Proof.
  intros H. unfold _extract_from_html.
  assert (Ht : title (fst (try_body E content init_locals)) = None).
  { rewrite try_body_title.
    unfold title_step, xpath, lift, bind. rewrite H. reflexivity. }
  unfold build. rewrite Ht. reflexivity.
Qed.

Lemma page_title_failure_escapes (e : exn) :
  content q_og_title = Ok [] -> content q_title = Raise e ->
  _extract_from_html E content = Raise (UnboundLocalError "title").
Proof.
  intros H1 H2. unfold _extract_from_html.
  assert (Ht : title (fst (try_body E content init_locals)) = None).
  { rewrite try_body_title.
    unfold title_step, xpath, lift, bind. rewrite H1, H2. reflexivity. }
  unfold build. rewrite Ht. reflexivity.
Qed.

Lemma build_ok (st : Locals) (t : string) :
  title st = Some t ->
  build E st
  = Ok (mkResourceContent
      [ ("title", VStr (if is_empty t then "Unknown Album" else t));
        ("localized_title",
          VLocalized (if is_nil (localized_title st) then default_title
                      else uniq (localized_title st)));
        ("localized_description", VLocalized (uniq (localized_desc st)));
        ("artist",
          VList (if is_nil (artist st) then [] else list_set E (artist st)));
        ("genre",
          VList (if is_nil (genre st) then [] else list_set E (genre st)));
        ("release_date", opt_value (release_date st));
        ("track_list",
          if is_nil (track_list st) then VNone
          else VStr (join newline_str (numbered (track_list st))));
        ("duration",
          if (0 <? duration st)%Z then VInt (duration st) else VNone);
        ("cover_image_url", opt_value (image_url st)) ]).
Proof. intros H. unfold build. rewrite H. reflexivity. Qed.

Lemma build_inv (st : Locals) (r : ResourceContent) :
  build E st = Ok r -> exists t, title st = Some t.
Proof. unfold build. destruct (title st); [eauto | discriminate]. Qed.

Lemma try_body_duration (st : Locals) :
  duration (fst (try_body E content st)) = duration st.
Proof. apply (run_steps_preserves duration), steps_preserve_duration. Qed.

(** Once a prefix of the steps that starts with the title step has
    completed, the title is bound at the end of the [try] block. *)
Lemma prefix_ok_title_bound (l : list (M unit)) (st : Locals) :
  run_steps (title_step E content :: l) init_locals = (st, Ok tt) ->
  title (fst (try_body E content init_locals)) <> None.
Proof.
  simpl. unfold bind at 1.
  destruct (title_step E content init_locals) as [st1 [[]|e]] eqn:Hstep;
    [|discriminate].
  intros _. rewrite try_body_title, Hstep. simpl.
  destruct (title_step_ok _ _ Hstep) as (t & l' & H & _). congruence.
Qed.

(** *** Release date *)







(** *** Track list *)

Lemma track_prefix_preserves_track_list :
  Forall (preserves track_list)
    [title_step E content; image_step content; artist_step content;
     date_step E content; genre_step content].
Proof.
  repeat constructor;
    unfold title_step, image_step, artist_step, date_step, genre_step; frame.
Qed.

Lemma desc_step_preserves_track_list :
  preserves track_list (desc_step content).
Proof. unfold desc_step; frame. Qed.

Lemma track_step_value (st : Locals) (ms : list string) :
  content q_tracks = Ok ms -> track_list st = [] ->
  track_value (track_list (fst (track_step content st))) = track_rule ms.
Proof.
  intros Hq Hnil.
  unfold track_step, track_rule, track_value, xpath, lift, bind, modify, ret.
  rewrite Hq. destruct ms as [|m ms]; simpl.
  - rewrite Hnil. reflexivity.
  - destruct (stripped_nonblank (m :: ms)); reflexivity.
Qed.

Lemma track_step_maintains :
  maintains (track_inv content) (track_step content).
Proof.
  intros st HP.
  unfold track_step, xpath, lift, bind, modify, ret.
  destruct (content q_tracks) as [ms|e] eqn:Hq; [|exact HP].
  destruct ms as [|m ms]; [exact HP|]. simpl.
  right. exists (m :: ms). split; [exact Hq|].
  unfold track_rule, track_value.
  destruct (stripped_nonblank (m :: ms)); reflexivity.
Qed.

Lemma try_body_track_inv :
  track_inv content (fst (try_body E content init_locals)).
Proof.
  apply (run_steps_maintains (track_inv content) (steps E content));
    [|left; reflexivity].
  pose proof track_prefix_preserves_track_list as Hp.
  pose proof desc_step_preserves_track_list as H7.
  inversion Hp as [|? ? H1 Hp1]; subst.
  inversion Hp1 as [|? ? H2 Hp2]; subst.
  inversion Hp2 as [|? ? H3 Hp3]; subst.
  inversion Hp3 as [|? ? H4 Hp4]; subst.
  inversion Hp4 as [|? ? H5 _]; subst.
  unfold steps.
  repeat (apply Forall_cons;
    [ first
        [ apply track_step_maintains
        | apply (preserves_maintains track_list
            (fun x => x = [] \/ exists ms, content q_tracks = Ok ms
                        /\ track_value x = track_rule ms)); assumption ] | ]).
  apply Forall_nil.
Qed.

Lemma try_body_track_list (st : Locals) (ms : list string) :
  run_steps [title_step E content; image_step content; artist_step content;
             date_step E content; genre_step content]
    init_locals = (st, Ok tt) ->
  content q_tracks = Ok ms ->
  track_value (track_list (fst (try_body E content init_locals)))
  = track_rule ms.
Proof.
  intros Hpre Hq.
  change (try_body E content init_locals)
    with (run_steps
            ([title_step E content; image_step content; artist_step content;
              date_step E content; genre_step content]
             ++ [track_step content; desc_step content]) init_locals).
  rewrite run_steps_app, Hpre.
  cbn [run_steps].
  rewrite (bind_then_preserves track_list).
  - apply track_step_value; [exact Hq|].
    change st with (fst (st, @Ok unit tt)). rewrite <- Hpre.
    apply (run_steps_preserves track_list),
      track_prefix_preserves_track_list.
  - intros _.
    apply (run_steps_preserves track_list [desc_step content]).
    constructor; [apply desc_step_preserves_track_list | constructor].
Qed.

(** *** Language tags *)

Lemma title_step_preserves_localized_desc :
  preserves localized_desc (title_step E content).
Proof. unfold title_step; frame. Qed.

Lemma middle_steps_preserve_localized_desc :
  Forall (preserves localized_desc)
    [image_step content; artist_step content; date_step E content;
     genre_step content; track_step content].
Proof.
  repeat constructor;
    unfold image_step, artist_step, date_step, genre_step, track_step; frame.
Qed.

Lemma middle_steps_preserve_lang :
  Forall (preserves lang)
    [image_step content; artist_step content; date_step E content;
     genre_step content; track_step content].
Proof.
  repeat constructor;
    unfold image_step, artist_step, date_step, genre_step, track_step; frame.
Qed.

(** The description entry is tagged with the variable [lang], which the
    title step has set. *)
Lemma desc_step_value (st : Locals) (l : string) :
  localized_desc st = [] -> lang st = Some l ->
  localized_desc (fst (desc_step content st)) = []
  \/ exists d, localized_desc (fst (desc_step content st)) = [mkLT l d].
Proof.
  intros Hd Hl.
  unfold desc_step, xpath, lift, bind, gets, modify, read, ret.
  destruct (content q_og_description) as [[|d ds]|e]; simpl; auto.
  destruct (is_empty (strip d)); simpl; auto.
  rewrite Hl. simpl. rewrite Hd. right. eexists. reflexivity.
Qed.

Lemma later_steps_localized_desc (st : Locals) (l : string) :
  localized_desc st = [] -> lang st = Some l ->
  let st' :=
    fst (run_steps
           [image_step content; artist_step content; date_step E content;
            genre_step content; track_step content; desc_step content] st) in
  localized_desc st' = [] \/ exists d, localized_desc st' = [mkLT l d].
Proof.
  intros Hd Hl.
  change [image_step content; artist_step content; date_step E content;
          genre_step content; track_step content; desc_step content]
    with ([image_step content; artist_step content; date_step E content;
           genre_step content; track_step content] ++ [desc_step content])%list.
  rewrite run_steps_app.
  pose proof (run_steps_preserves localized_desc _
                middle_steps_preserve_localized_desc st) as H1.
  pose proof (run_steps_preserves lang _ middle_steps_preserve_lang st) as H2.
  destruct (run_steps _ st) as [st2 [[]|e]]; simpl in H1, H2.
  - cbn [run_steps]. cbv zeta.
    rewrite (bind_then_preserves localized_desc);
      [|intros _; apply preserves_ret].
    apply desc_step_value; congruence.
  - simpl. left. congruence.
Qed.

(** The language tags at the end of the [try] block. *)
Lemma try_body_localized :
  let stf := fst (try_body E content init_locals) in
  (localized_title stf = [] /\ localized_desc stf = [])
  \/ exists t l,
       title stf = Some t /\ detect_language E t = Ok l
       /\ localized_title stf = [mkLT l t]
       /\ (localized_desc stf = []
           \/ exists d, localized_desc stf = [mkLT l d]).
Proof.
  cbv zeta. rewrite try_body_unfold.
  destruct (title_step E content init_locals) as [st1 [[]|e]] eqn:Hstep.
  - right.
    destruct (title_step_ok _ _ Hstep) as (t & l & H1 & H2 & H3 & H4).
    simpl in H4.
    pose proof (title_step_preserves_localized_desc init_locals) as H5.
    rewrite Hstep in H5. simpl in H5.
    exists t, l. repeat split.
    + rewrite (run_steps_preserves title _ later_steps_preserve_title).
      exact H1.
    + exact H3.
    + rewrite (run_steps_preserves localized_title _
                 later_steps_preserve_localized_title).
      exact H4.
    + apply later_steps_localized_desc; assumption.
  - left. destruct (title_step_raise _ _ _ Hstep) as [H1 H2]. simpl. auto.
Qed.

(** *** A raised exception *)



(** When the title step raises with the title bound, it is the language
    detector that raised. *)
Lemma title_step_raise_bound (st1 : Locals) (e : exn) (t : string) :
  title_step E content init_locals = (st1, Raise e) ->
  title st1 = Some t -> detect_language E t = Raise e.
Proof.
  unfold title_step, xpath, lift, bind, gets, modify, read, ret.
  destruct (content q_og_title) as [[|u us]|e0].
  - destruct (content q_title) as [[|v vs]|e1]; simpl;
      try (destruct (detect_language E _) as [l|e2] eqn:Hl; [discriminate|]);
      intros H; injection H as <- <-; simpl; intros Ht;
      try discriminate; injection Ht as <-; exact Hl.
  - destruct (contains " - " u) eqn:Hc.
    + destruct (contains_split1 _ _ Hc) as (a & b & ->). simpl.
      destruct (detect_language E _) as [l|e2] eqn:Hl; [discriminate|].
      intros H; injection H as <- <-; simpl; intros Ht.
      injection Ht as <-; exact Hl.
    + simpl. destruct (detect_language E _) as [l|e2] eqn:Hl; [discriminate|].
      intros H; injection H as <- <-; simpl; intros Ht.
      injection Ht as <-; exact Hl.
  - intros H; injection H as <- <-; simpl; discriminate.
Qed.

(** The title and its entry in the record, from the title the title step
    has bound. *)
Lemma extract_title_fields (t : string) :
  title (fst (title_step E content init_locals)) = Some t ->
  exists r,
    _extract_from_html E content = Ok r
    /\ field "title" r
       = Some (VStr (if is_empty t then "Unknown Album" else t))
    /\ field "localized_title" r
       = Some (VLocalized
           (match detect_language E t with
            | Ok l => [mkLT l t]
            | Raise _ => default_title
            end)).
Proof.
  intros Ht. unfold _extract_from_html.
  assert (Hf : title (fst (try_body E content init_locals)) = Some t).
  { rewrite try_body_title. exact Ht. }
  rewrite (build_ok _ _ Hf). eexists. split; [reflexivity|].
  unfold field. simpl. split; [reflexivity|].
  rewrite try_body_unfold.
  destruct (title_step E content init_locals) as [st1 [[]|e]] eqn:Hstep;
    simpl in Ht.
  - destruct (title_step_ok _ _ Hstep) as (t' & l & H1 & H2 & H3 & H4).
    assert (t' = t) as -> by congruence.
    simpl in H4.
    rewrite !(run_steps_preserves localized_title _
                later_steps_preserve_localized_title).
    rewrite H4, H3. reflexivity.
  - destruct (title_step_raise _ _ _ Hstep) as [H1 _].
    rewrite (title_step_raise_bound _ _ _ Hstep Ht).
    simpl. rewrite H1. reflexivity.
Qed.

(** A failure among the first steps ends the [try] block there. *)
Lemma try_body_prefix_raise (pre post : list (M unit)) (st : Locals) (e : exn) :
  steps E content = (pre ++ post)%list ->
  run_steps pre init_locals = (st, Raise e) ->
  try_body E content init_locals = (st, Raise e).
Proof.
  intros Hsteps Hpre. unfold try_body.
  rewrite Hsteps, run_steps_app, Hpre. reflexivity.
Qed.


Lemma track_prefix_raise (st : Locals) (e : exn) :
  run_steps [title_step E content; image_step content; artist_step content;
             date_step E content; genre_step content]
    init_locals = (st, Raise e) ->
  track_list (fst (try_body E content init_locals)) = [].
Proof.
  intros Hpre.
  rewrite (try_body_prefix_raise
             [title_step E content; image_step content; artist_step content;
              date_step E content; genre_step content]
             [track_step content; desc_step content] st e eq_refl Hpre).
  pose proof (run_steps_preserves track_list _
                track_prefix_preserves_track_list init_locals) as H.
  rewrite Hpre in H. exact H.
Qed.

(** *** Steps that return *)

Lemma run_steps_completes (l : list (M unit)) :
  Forall completes l -> completes (run_steps l).
Proof.
  induction 1 as [|s l Hs _ IH]; intros st; simpl.
  - eexists. reflexivity.
  - destruct (Hs st) as [st1 H1]. destruct (IH st1) as [st2 H2].
    exists st2. unfold bind. rewrite H1. exact H2.
Qed.

Lemma title_step_completes :
  queries_answer content -> detector_returns E ->
  completes (title_step E content).
Proof.
  intros Hq Hd st.
  unfold title_step, xpath, lift, bind, gets, modify, read, ret.
  destruct (Hq q_og_title) as [[|t ts] ->].
  - destruct (Hq q_title) as [[|u us] ->]; simpl;
      match goal with |- context [detect_language E ?x] =>
        destruct (Hd x) as [l ->] end; eexists; reflexivity.
  - destruct (contains " - " t) eqn:Hc.
    + destruct (contains_split1 _ _ Hc) as (a & b & ->). simpl.
      match goal with |- context [detect_language E ?x] =>
        destruct (Hd x) as [l ->] end. eexists; reflexivity.
    + simpl.
      match goal with |- context [detect_language E ?x] =>
        destruct (Hd x) as [l ->] end. eexists; reflexivity.
Qed.

Lemma image_step_completes :
  queries_answer content -> completes (image_step content).
Proof.
  intros Hq st. unfold image_step, xpath, lift, bind, modify, ret.
  destruct (Hq q_og_image) as [[|u us] ->]; eexists; reflexivity.
Qed.

Lemma artist_step_completes :
  queries_answer content -> completes (artist_step content).
Proof.
  intros Hq st. unfold artist_step, xpath, lift, bind, gets, modify, ret.
  destruct (Hq q_artist) as [[|u us] ->]; simpl;
    try destruct (is_nil (artist st)); eexists; reflexivity.
Qed.

Lemma date_step_completes :
  queries_answer content -> parser_returns E ->
  completes (date_step E content).
Proof.
  intros Hq Hp st. unfold date_step, xpath, lift, bind, modify, ret.
  destruct (Hq q_date) as [[|u us] ->]; simpl; [eexists; reflexivity|].
  match goal with |- context [dateparser_parse E ?x] =>
    destruct (Hp x) as [[d|] ->] end; eexists; reflexivity.
Qed.

Lemma genre_step_completes :
  queries_answer content -> completes (genre_step content).
Proof.
  intros Hq st. unfold genre_step, xpath, lift, bind, modify, ret.
  destruct (Hq q_genre) as [[|u us] ->]; eexists; reflexivity.
Qed.

End StepFacts.

(* ================================================================= *)
(** ** Blank text and the title separator *)

Lemma rstrip_by_empty (p : ascii -> bool) (s : string) :
  rstrip_by p s = "" -> all_chars p s = true.
Proof.
  induction s as [|c s IH]; simpl; [reflexivity|].
  destruct (rstrip_by p s); [|discriminate].
  destruct (p c); [|discriminate]. intros _. now apply IH.
Qed.

Lemma lstrip_by_all (p : ascii -> bool) (s : string) :
  all_chars p (lstrip_by p s) = true -> all_chars p s = true.
Proof.
  induction s as [|c s IH]; simpl; [reflexivity|].
  destruct (p c) eqn:Hc; simpl; [exact IH|].
  rewrite Hc. discriminate.
Qed.

Lemma strip_blank (s : string) :
  strip s = "" -> all_chars is_space s = true.
Proof.
  intros H. apply lstrip_by_all, rstrip_by_empty. exact H.
Qed.

Lemma blank_has_no_separator (s : string) :
  all_chars is_space s = true -> split1_aux " - " s = None.
Proof.
  induction s as [|c s IH]; [reflexivity|].
  cbn [all_chars]. intros H. apply andb_true_iff in H as [Hc Hs].
  cbn [split1_aux]. rewrite (IH Hs).
  assert (Hd : drop_prefix " - " (String c s) = None).
  { cbn [drop_prefix]. destruct (Ascii.eqb " " c); [|reflexivity].
    destruct s as [|d s]; [reflexivity|].
    cbn [all_chars] in Hs. apply andb_true_iff in Hs as [Hd _].
    cbn [drop_prefix]. destruct (Ascii.eqb "-" d) eqn:He; [|reflexivity].
    apply Ascii.eqb_eq in He. subst d. discriminate. }
  rewrite Hd. reflexivity.
Qed.

Lemma blank_contains_no_separator (s : string) :
  strip s = "" -> contains " - " s = false.
Proof.
  intros H. unfold contains.
  rewrite (blank_has_no_separator s (strip_blank s H)). reflexivity.
Qed.

(** ** Documents that differ on the page-title query only *)

Lemma run_steps_ext (l1 l2 : list (M unit)) :
  Forall2 (fun a b => forall st, a st = b st) l1 l2 ->
  forall st, run_steps l1 st = run_steps l2 st.
Proof.
  induction 1 as [|a b l1 l2 Hab _ IH]; intros st; simpl; [reflexivity|].
  unfold bind. rewrite Hab.
  destruct (b st) as [st' [[]|e]]; [apply IH | reflexivity].
Qed.

Lemma try_body_ignores_page_title (E : Collaborators) (c1 c2 : Document)
    (t : string) (ts : list string) :
  c1 q_og_title = Ok (t :: ts) ->
  (forall q, q <> q_title -> c2 q = c1 q) ->
  forall st, try_body E c2 st = try_body E c1 st.
Proof.
  intros Hog Hsame. unfold try_body. apply run_steps_ext.
  assert (Hog2 : c2 q_og_title = Ok (t :: ts)).
  { rewrite Hsame; [exact Hog | discriminate]. }
  unfold steps.
  repeat (apply Forall2_cons; [intros st|]); [..|apply Forall2_nil].
  - unfold title_step, xpath, lift, bind. rewrite Hog, Hog2. reflexivity.
  - unfold image_step, xpath. rewrite Hsame; [reflexivity | discriminate].
  - unfold artist_step, xpath. rewrite Hsame; [reflexivity | discriminate].
  - unfold date_step, xpath. rewrite Hsame; [reflexivity | discriminate].
  - unfold genre_step, xpath. rewrite Hsame; [reflexivity | discriminate].
  - unfold track_step, xpath. rewrite Hsame; [reflexivity | discriminate].
  - unfold desc_step, xpath. rewrite Hsame; [reflexivity | discriminate].
Qed.

Lemma blank_og_title_binds_blank (E : Collaborators) (content : Document)
    (t : string) (ts : list string) :
  content q_og_title = Ok (t :: ts) -> strip t = "" ->
  title (fst (title_step E content init_locals)) = Some "".
Proof.
  intros Hog Hblank.
  unfold title_step, xpath, lift, bind, gets, modify, read, ret.
  rewrite Hog, (blank_contains_no_separator t Hblank), Hblank. simpl.
  destruct (detect_language E ""); reflexivity.
Qed.

(** ** Release date and track list of the record *)

Section RecordFields.
Variable E : Collaborators.
Variable content : Document.




Lemma date_step_reached :
  queries_answer content -> detector_returns E ->
  exists st,
    run_steps [title_step E content; image_step content; artist_step content]
      init_locals = (st, Ok tt).
Proof.
  intros Hq Hd. apply run_steps_completes.
  repeat apply Forall_cons; try apply Forall_nil;
    auto using title_step_completes, image_step_completes,
      artist_step_completes.
Qed.

Lemma track_list_never_partial (r : ResourceContent) :
  _extract_from_html E content = Ok r ->
  field "track_list" r = Some VNone
  \/ exists ms, content q_tracks = Ok ms
       /\ field "track_list" r = Some (track_rule ms).
Proof.
  unfold _extract_from_html. intros H.
  destruct (build_inv E _ _ H) as [t Ht].
  rewrite (build_ok E _ _ Ht) in H. injection H as <-.
  unfold field. simpl.
  destruct (try_body_track_inv E content) as [H|(ms & Hq & H)].
  - left. rewrite H. reflexivity.
  - right. exists ms. split; [exact Hq|]. rewrite <- H. reflexivity.
Qed.

Lemma track_list_when_reached (st : Locals) (ms : list string) :
  run_steps [title_step E content; image_step content; artist_step content;
             date_step E content; genre_step content]
    init_locals = (st, Ok tt) ->
  content q_tracks = Ok ms ->
  exists r, _extract_from_html E content = Ok r
    /\ field "track_list" r = Some (track_rule ms).
Proof.
  unfold _extract_from_html. intros Hpre Hq.
  pose proof (prefix_ok_title_bound E content _ _ Hpre) as Hb.
  destruct (title (fst (try_body E content init_locals))) as [t|] eqn:Ht;
    [|congruence].
  rewrite (build_ok E _ _ Ht). eexists. split; [reflexivity|].
  unfold field. simpl.
  rewrite <- (try_body_track_list E content st ms Hpre Hq). reflexivity.
Qed.

Lemma track_list_when_not_reached (st : Locals) (e : exn)
    (r : ResourceContent) :
  run_steps [title_step E content; image_step content; artist_step content;
             date_step E content; genre_step content]
    init_locals = (st, Raise e) ->
  _extract_from_html E content = Ok r ->
  field "track_list" r = Some VNone.
Proof.
  unfold _extract_from_html. intros Hpre H.
  destruct (build_inv E _ _ H) as [t Ht].
  rewrite (build_ok E _ _ Ht) in H. injection H as <-.
  unfold field. simpl.
  rewrite (track_prefix_raise E content st e Hpre). reflexivity.
Qed.

Lemma track_step_reached :
  queries_answer content -> detector_returns E -> parser_returns E ->
  exists st,
    run_steps [title_step E content; image_step content; artist_step content;
               date_step E content; genre_step content]
      init_locals = (st, Ok tt).
Proof.
  intros Hq Hd Hp. apply run_steps_completes.
  repeat apply Forall_cons; try apply Forall_nil;
    auto using title_step_completes, image_step_completes,
      artist_step_completes, date_step_completes, genre_step_completes.
Qed.

End RecordFields.

(** ** The sample collaborators follow their interfaces *)

Lemma doc_of_answers (answers : list (string * list string)) :
  queries_answer (doc_of answers).
Proof.
  intros q. unfold doc_of.
  destruct (find _ answers); eexists; reflexivity.
Qed.

Lemma failing_on_does_not_answer (q : string) (d : Document) :
  ~ queries_answer (failing_on q d).
Proof.
  intros H. destruct (H q) as [ms Hms]. unfold failing_on in Hms.
  rewrite String.eqb_refl in Hms. discriminate.
Qed.

Lemma detect_en_returns parse : detector_returns (collab detect_en parse).
Proof. intros t. exists "en". reflexivity. Qed.

Lemma parse_known_returns detect : parser_returns (collab detect parse_known).
Proof.
  intros t. simpl. unfold parse_known.
  destruct (String.eqb t _); eexists; reflexivity.
Qed.

(** ** Numbered lines *)

(** Line [i] of the numbered track list is the ordinal [i+1], a dot, a
    space and the [i]-th track. *)
Lemma numbered_from_nth (l : list string) (k i : nat) (t : string) :
  nth_error l i = Some t ->
  nth_error (map (fun it => str_of_nat (fst it + 1) ++ ". " ++ snd it)
               (enumerate_from k l)) i
  = Some (str_of_nat (k + i + 1) ++ ". " ++ t).
Proof.
  revert k i. induction l as [|x l IH]; intros k i H.
  - destruct i; discriminate.
  - destruct i as [|i]; cbn [nth_error map enumerate_from fst snd] in *.
    + injection H as ->. rewrite Nat.add_0_r. reflexivity.
    + rewrite (IH (S k) i H).
      replace (S k + i + 1) with (k + S i + 1) by lia. reflexivity.
Qed.

(* ================================================================= *)
(** ** Properties of the adapter *)

(** C2: for every identifier of the canonical shape (two or three
    slash-joined segments of word characters and hyphens),
    [url_to_id (id_to_url i)] gives [i] back. *)
Theorem C2_url_id_round_trip (i : string) :
  canonical_id i = true -> url_to_id (id_to_url i) = Some i.
Proof.
  intros H. destruct (canonical_id_text i H) as (Hne & Hnl & Hlast).
  now apply url_to_id_id_to_url.
Qed.

Lemma C2_url_id_round_trip_witness :
  canonical_id "miles-davis/kind-of-blue" = true
  /\ url_to_id (id_to_url "miles-davis/kind-of-blue")
     = Some "miles-davis/kind-of-blue".
Proof.
  split; [reflexivity|].
  apply (C2_url_id_round_trip "miles-davis/kind-of-blue"). reflexivity.
Defined.

(** C1: the extraction does not return a record for every document.  On
    a document whose first title query fails, the [except] clause catches
    the failure, but [title] was never bound and the dict literal that
    builds the record raises UnboundLocalError to the caller. *)
Theorem C1_title_query_failure_reaches_caller :
  _extract_from_html (collab detect_en parse_known)
    (failing_on q_og_title kind_of_blue)
  = Raise (UnboundLocalError "title").
Proof. reflexivity. Qed.

(** C3, as stated, fails: with no title match at all and a detector that
    answers "x" for "Unknown Album", the title entry carries "x", not
    "en". *)
Lemma C3_default_title_language_counterexample :
  no_anchor q_og_title = Ok [] /\ no_anchor q_title = Ok []
  /\ exists r,
       _extract_from_html (collab detect_x parse_known) no_anchor = Ok r
       /\ field "localized_title" r
          = Some (VLocalized [mkLT "x" "Unknown Album"])
       /\ field "localized_title" r <> Some (VLocalized default_title).
Proof.
  split; [reflexivity|]. split; [reflexivity|].
  eexists. split; [reflexivity|]. split; [reflexivity|]. discriminate.
Qed.

(** C3, amended: when neither title query yields a match, a record is
    returned and its localized_title is the single entry with text
    "Unknown Album" and the language code the detector gives for that
    text; the code is "en" when the detector raises. *)
Theorem C3_default_title_entry (E : Collaborators) (content : Document) :
  content q_og_title = Ok [] -> content q_title = Ok [] ->
  exists r,
    _extract_from_html E content = Ok r
    /\ field "localized_title" r
       = Some (VLocalized
           [mkLT (match detect_language E "Unknown Album" with
                  | Ok l => l
                  | Raise _ => "en"
                  end) "Unknown Album"]).
Proof.
  intros Hog Ht.
  assert (Htitle : title (fst (title_step E content init_locals))
                   = Some "Unknown Album").
  { unfold title_step, xpath, lift, bind, gets, modify, read, ret.
    rewrite Hog, Ht. simpl.
    destruct (detect_language E _); reflexivity. }
  destruct (extract_title_fields E content _ Htitle) as (r & Hr & _ & Hlt).
  exists r. split; [exact Hr|]. rewrite Hlt.
  destruct (detect_language E "Unknown Album"); reflexivity.
Qed.

Lemma C3_default_title_entry_witness :
  exists r,
    _extract_from_html (collab detect_x parse_known) no_anchor = Ok r
    /\ field "localized_title" r
       = Some (VLocalized [mkLT "x" "Unknown Album"]).
Proof.
  exact (C3_default_title_entry (collab detect_x parse_known) no_anchor
           eq_refl eq_refl).
Defined.



(** C10: the duration accumulator stays at 0 through the whole
    extraction, and the duration of every returned record is None. *)
Theorem C10_duration_absent (E : Collaborators) (content : Document)
    (r : ResourceContent) :
  _extract_from_html E content = Ok r ->
  duration (fst (try_body E content init_locals)) = 0%Z
  /\ field "duration" r = Some VNone.
Proof.
  unfold _extract_from_html. intros H.
  pose proof (try_body_duration E content init_locals) as Hd. simpl in Hd.
  split; [exact Hd|].
  destruct (build_inv E _ _ H) as [t Ht].
  rewrite (build_ok E _ _ Ht) in H. injection H as <-.
  unfold field. simpl. rewrite Hd. reflexivity.
Qed.

Lemma C10_duration_absent_witness :
  exists r,
    _extract_from_html (collab detect_en parse_known) kind_of_blue = Ok r
    /\ duration (fst (try_body (collab detect_en parse_known) kind_of_blue
                        init_locals)) = 0%Z
    /\ field "duration" r = Some VNone.
Proof.
  eexists. split; [vm_compute; reflexivity|].
  apply (C10_duration_absent (collab detect_en parse_known) kind_of_blue).
  vm_compute. reflexivity.
Defined.

(** C9, as stated, fails: the description "Un album de jazz modal" is
    tagged "en", the code detected for the title, although the detector
    answers "fr" for the description text itself. *)
Lemma C9_description_language_counterexample :
  exists r d,
    _extract_from_html (collab detect_fr_en parse_known) kind_of_blue = Ok r
    /\ field "localized_description" r = Some (VLocalized [d])
    /\ detect_language (collab detect_fr_en parse_known) (lt_text d) = Ok "fr"
    /\ lt_lang d = "en".
Proof.
  exists (mkResourceContent
    [ ("title", VStr "Kind of Blue");
      ("localized_title", VLocalized [mkLT "en" "Kind of Blue"]);
      ("localized_description",
        VLocalized [mkLT "en" "Un album de jazz modal"]);
      ("artist", VList ["Miles Davis"]);
      ("genre", VList ["Jazz"; "Modal Jazz"]);
      ("release_date", VStr "1959-08-17");
      ("track_list",
        VStr ("1. Intro" ++ newline_str ++ "2. Song A" ++ newline_str
              ++ "3. Song B"));
      ("duration", VNone);
      ("cover_image_url", VStr "https://e.snmc.io/kob.jpg") ]).
  exists (mkLT "en" "Un album de jazz modal").
  repeat split; vm_compute; reflexivity.
Qed.




(** C6, as stated, fails: an og:title match that is blank after trimming
    does not send the extraction to the page-title query.  The page
    title "Page Title" is ignored; the title stays blank, so the record
    has the title "Unknown Album" and a title entry with empty text. *)
Lemma C6_blank_og_title_counterexample :
  blank_og_title q_og_title = Ok ["   "] /\ strip "   " = ""
  /\ blank_og_title q_title = Ok ["Page Title"]
  /\ exists r,
       _extract_from_html (collab detect_en parse_known) blank_og_title = Ok r
       /\ field "title" r = Some (VStr "Unknown Album")
       /\ field "localized_title" r = Some (VLocalized [mkLT "en" ""])
       /\ field "title" r <> Some (VStr "Page Title").
Proof.
  repeat (split; [reflexivity|]).
  eexists. split; [vm_compute; reflexivity|].
  repeat split; try reflexivity. discriminate.
Qed.

(** C6, amended: a candidate query counts as empty only when it returns
    no match at all.  When the og:title query returns a match, blank or
    not, the page-title query is not consulted: the outcome is the same
    for any two documents that differ on that query only.  A blank
    og:title match leaves the title blank: the record has the title
    "Unknown Album" and a title entry with empty text, tagged with the
    code the detector gives for the empty text. *)
Theorem C6_og_title_match_stops_fallback (E : Collaborators)
    (c1 c2 : Document) (t : string) (ts : list string) :
  c1 q_og_title = Ok (t :: ts) ->
  (forall q, q <> q_title -> c2 q = c1 q) ->
  _extract_from_html E c2 = _extract_from_html E c1
  /\ (strip t = "" ->
      exists r,
        _extract_from_html E c1 = Ok r
        /\ field "title" r = Some (VStr "Unknown Album")
        /\ field "localized_title" r
           = Some (VLocalized
               (match detect_language E "" with
                | Ok l => [mkLT l ""]
                | Raise _ => default_title
                end))).
Proof.
  intros Hog Hsame. split.
  - unfold _extract_from_html.
    rewrite (try_body_ignores_page_title E c1 c2 t ts Hog Hsame).
    reflexivity.
  - intros Hblank.
    apply (extract_title_fields E c1 "").
    apply (blank_og_title_binds_blank E c1 t ts Hog Hblank).
Qed.

Lemma C6_og_title_match_stops_fallback_witness :
  _extract_from_html (collab detect_en parse_known)
    (doc_of [ (q_og_title, ["   "]) ])
  = _extract_from_html (collab detect_en parse_known) blank_og_title
  /\ exists r,
       _extract_from_html (collab detect_en parse_known) blank_og_title = Ok r
       /\ field "title" r = Some (VStr "Unknown Album")
       /\ field "localized_title" r = Some (VLocalized [mkLT "en" ""]).
Proof.
  assert (Hsame : forall q, q <> q_title ->
            doc_of [ (q_og_title, ["   "]) ] q = blank_og_title q).
  { intros q Hq. unfold blank_og_title, doc_of. simpl.
    destruct (String.eqb q q_og_title); [reflexivity|].
    destruct (String.eqb_spec q q_title); [contradiction | reflexivity]. }
  destruct (C6_og_title_match_stops_fallback (collab detect_en parse_known)
              blank_og_title (doc_of [ (q_og_title, ["   "]) ]) "   " []
              eq_refl Hsame) as [H1 H2].
  split; [exact H1 | exact (H2 eq_refl)].
Defined.

(* ================================================================= *)
(** ** Further facts about strings and the regular expression *)

Lemma tail_spec (g s : string) :
  match_here [Opt "/"; EndOfString] g s = if tail_ok s then Some g else None.
Proof.
  unfold tail_ok. destruct s as [|c s]; [reflexivity|].
  cbn [match_here].
  destruct (Ascii.eqb "/" c); destruct (at_end s);
    destruct (at_end (String c s)); reflexivity.
Qed.

Lemma no_final_slash_tail (c : ascii) (s : string) :
  s <> "" -> no_final_slash (String c s) -> no_final_slash s.
Proof.
  intros _ H r d ->. apply (H (String c r) d). reflexivity.
Qed.

(** A text without newline that does not end in a slash is never, with
    whatever follows it, a legal end of the URL. *)
Lemma tail_ok_after_text (r tail : string) :
  r <> "" -> no_newline r = true -> no_final_slash r ->
  tail_ok (r ++ tail) = false.
Proof.
  intros Hne Hnl Hfs. destruct r as [|c r]; [congruence|].
  unfold no_newline in Hnl. cbn [all_chars] in Hnl.
  apply andb_true_iff in Hnl as [Hc Hr]. apply negb_true_iff in Hc.
  unfold tail_ok. cbn [append at_end].
  destruct (Ascii.eqb "/" c) eqn:Hs.
  - apply Ascii.eqb_eq in Hs. subst c.
    destruct r as [|d r].
    + specialize (Hfs "" "/"%char eq_refl). discriminate.
    + cbn [all_chars] in Hr. apply andb_true_iff in Hr as [Hd _].
      apply negb_true_iff in Hd. cbn [append at_end].
      rewrite Hd. destruct (r ++ tail); reflexivity.
  - rewrite Hc. destruct (r ++ tail); reflexivity.
Qed.

(** The lazy group takes the whole of [i] before any legal end. *)
Lemma lazy_any_takes_all (i acc tail : string) :
  i <> "" -> no_newline i = true -> no_final_slash i ->
  tail_ok tail = true ->
  lazy_any (match_here [Opt "/"; EndOfString]) acc (i ++ tail)
  = Some (acc ++ i).
Proof.
  revert acc. induction i as [|c i IH]; intros acc Hne Hnl Hfs Ht;
    [congruence|].
  pose proof Hnl as Hnl'. unfold no_newline in Hnl'. cbn [all_chars] in Hnl'.
  apply andb_true_iff in Hnl' as [Hc Hi]. apply negb_true_iff in Hc.
  cbn [append lazy_any]. rewrite Hc, tail_spec.
  destruct i as [|d i].
  - cbn [append]. rewrite Ht. reflexivity.
  - rewrite tail_ok_after_text;
      [|discriminate|exact Hi|apply (no_final_slash_tail c); [discriminate|exact Hfs]].
    rewrite IH;
      [|discriminate|exact Hi
       |apply (no_final_slash_tail c); [discriminate|exact Hfs]|exact Ht].
    rewrite append_assoc. reflexivity.
Qed.

Lemma search_skip_prefix (p : list item) (pre s : string) :
  all_chars (fun c => negb (Ascii.eqb "r" c)) pre = true ->
  search (Lit "r" :: p) (pre ++ s) = search (Lit "r" :: p) s.
Proof.
  induction pre as [|c pre IH]; intros H; [reflexivity|].
  cbn [all_chars] in H. apply andb_true_iff in H as [Hc Hpre].
  apply negb_true_iff in Hc.
  cbn [append]. rewrite search_skip_lit by exact Hc. apply IH, Hpre.
Qed.

Lemma lazy_any_sound (k : string -> string -> option string)
    (acc s g : string) :
  lazy_any k acc s = Some g ->
  exists grp rest,
    s = grp ++ rest /\ grp <> "" /\ no_newline grp = true
    /\ k (acc ++ grp) rest = Some g.
Proof.
  revert acc. induction s as [|c s IH]; intros acc H; [discriminate|].
  cbn [lazy_any] in H.
  destruct (is_newline c) eqn:Hc; [discriminate|].
  destruct (k (acc ++ String c "") s) as [g'|] eqn:Hk.
  - injection H as <-. exists (String c ""), s.
    repeat split; [discriminate | | exact Hk].
    unfold no_newline. cbn [all_chars]. rewrite Hc. reflexivity.
  - destruct (IH _ H) as (grp & rest & -> & _ & Hnl & Hk').
    exists (String c grp), rest.
    repeat split; [discriminate | | ].
    + unfold no_newline in *. cbn [all_chars]. rewrite Hc, Hnl. reflexivity.
    + rewrite append_assoc in Hk'. exact Hk'.
Qed.

Lemma lazy_any_complete (grp acc tail : string) :
  grp <> "" -> no_newline grp = true -> tail_ok tail = true ->
  exists g,
    lazy_any (match_here [Opt "/"; EndOfString]) acc (grp ++ tail) = Some g.
Proof.
  revert acc. induction grp as [|c grp IH]; intros acc Hne Hnl Ht;
    [congruence|].
  unfold no_newline in Hnl. cbn [all_chars] in Hnl.
  apply andb_true_iff in Hnl as [Hc Hg]. apply negb_true_iff in Hc.
  cbn [append lazy_any]. rewrite Hc, tail_spec.
  destruct (tail_ok (grp ++ tail)) eqn:Hok; [eauto|].
  destruct grp as [|d grp]; [cbn [append] in Hok; congruence|].
  apply IH; [discriminate | exact Hg | exact Ht].
Qed.

Lemma match_here_lits_sound (l : string) (p : list item) (g s r : string) :
  match_here (lits l ++ p) g s = Some r ->
  exists s', s = l ++ s' /\ match_here p g s' = Some r.
Proof.
  revert s. induction l as [|c l IH]; intros s H.
  - exists s. split; [reflexivity | exact H].
  - unfold lits in *. cbn [list_ascii_of_string map app match_here] in H.
    destruct s as [|d s]; [discriminate|].
    destruct (Ascii.eqb c d) eqn:Hcd; [|discriminate].
    apply Ascii.eqb_eq in Hcd. subst d.
    destruct (IH _ H) as (s' & -> & Hm). exists s'. split; [reflexivity|exact Hm].
Qed.

Lemma search_sound (p : list item) (s r : string) :
  search p s = Some r ->
  exists pre s', s = pre ++ s' /\ match_here p "" s' = Some r.
Proof.
  induction s as [|c s IH]; cbn [search].
  - destruct (match_here p "" "") eqn:Hm; [|discriminate].
    intros H. injection H as <-. exists "", "". split; [reflexivity|exact Hm].
  - destruct (match_here p "" (String c s)) eqn:Hm.
    + intros H. injection H as <-. exists "", (String c s).
      split; [reflexivity|exact Hm].
    + intros H. destruct (IH H) as (pre & s' & -> & Hm').
      exists (String c pre), s'. split; [reflexivity|exact Hm'].
Qed.

Lemma search_complete (p : list item) (pre s g : string) :
  match_here p "" s = Some g -> exists g', search p (pre ++ s) = Some g'.
Proof.
  intros H. induction pre as [|c pre IH].
  - exists g. apply search_here. exact H.
  - cbn [append search].
    destruct (match_here p "" (String c (pre ++ s))); [eauto | exact IH].
Qed.

Lemma rstrip_by_no_trailing (p : ascii -> bool) (s r : string) (c : ascii) :
  rstrip_by p s = r ++ String c "" -> p c = false.
Proof.
  revert r. induction s as [|d s IH]; intros r H; cbn [rstrip_by] in H.
  - destruct r; discriminate.
  - destruct (rstrip_by p s) as [|e rs] eqn:Hrs.
    + destruct (p d) eqn:Hd; [destruct r; discriminate|].
      destruct r as [|x r]; cbn [append] in H.
      * injection H as <-. exact Hd.
      * injection H as _ H. destruct r; discriminate.
    + destruct r as [|x r]; cbn [append] in H.
      * discriminate.
      * injection H as _ H. apply (IH r). exact H.
Qed.

Lemma rstrip_by_all_chars (p q : ascii -> bool) (s : string) :
  all_chars q s = true -> all_chars q (rstrip_by p s) = true.
Proof.
  induction s as [|c s IH]; [reflexivity|].
  cbn [all_chars rstrip_by]. intros H. apply andb_true_iff in H as [Hc Hs].
  specialize (IH Hs).
  destruct (rstrip_by p s) as [|d r].
  - destruct (p c); cbn [all_chars]; [reflexivity | now rewrite Hc].
  - cbn [all_chars] in *. now rewrite Hc, IH.
Qed.

Lemma match_here_group (p : list item) (g s : string) :
  match_here (LazyGroup :: p) g s = lazy_any (match_here p) "" s.
Proof. reflexivity. Qed.

(** Whatever [url_to_id] returns was read off the URL. *)
Lemma url_to_id_shape (url i : string) :
  url_to_id url = Some i ->
  exists pre grp tail,
    url = pre ++ "rateyourmusic.com/release/album/" ++ grp ++ tail
    /\ grp <> "" /\ no_newline grp = true /\ tail_ok tail = true
    /\ i = rstrip_char "/" grp.
Proof.
  unfold url_to_id.
  destruct (search url_pattern url) as [g|] eqn:Hs; [|discriminate].
  intros H. injection H as <-.
  destruct (search_sound _ _ _ Hs) as (pre & s' & -> & Hm).
  unfold url_pattern in Hm.
  destruct (match_here_lits_sound _ _ _ _ _ Hm) as (s'' & -> & Hm').
  rewrite match_here_group in Hm'.
  destruct (lazy_any_sound _ _ _ _ Hm') as (grp & rest & -> & Hne & Hnl & Hk).
  rewrite tail_spec in Hk.
  destruct (tail_ok rest) eqn:Hok; [|discriminate].
  injection Hk as <-.
  exists pre, grp, rest. repeat split; auto.
Qed.

Lemma url_to_id_accepts (pre grp tail : string) :
  grp <> "" -> no_newline grp = true -> tail_ok tail = true ->
  exists i,
    url_to_id (pre ++ "rateyourmusic.com/release/album/" ++ grp ++ tail)
    = Some i.
Proof.
  intros Hne Hnl Hok.
  destruct (lazy_any_complete grp "" tail Hne Hnl Hok) as [g Hg].
  assert (Hm : match_here url_pattern ""
                 ("rateyourmusic.com/release/album/" ++ grp ++ tail) = Some g).
  { unfold url_pattern. rewrite match_here_lits, match_here_group. exact Hg. }
  destruct (search_complete _ pre _ _ Hm) as [g' Hs].
  unfold url_to_id. rewrite Hs. eauto.
Qed.

Lemma url_to_id_of_text (pre i tail : string) :
  all_chars (fun c => negb (Ascii.eqb "r" c)) pre = true ->
  i <> "" -> no_newline i = true -> no_final_slash i ->
  tail_ok tail = true ->
  url_to_id (pre ++ "rateyourmusic.com/release/album/" ++ i ++ tail) = Some i.
Proof.
  intros Hpre Hne Hnl Hfs Hok.
  unfold url_to_id.
  change url_pattern
    with (Lit "r" :: (lits "ateyourmusic.com/release/album/"
                        ++ [LazyGroup; Opt "/"; EndOfString])%list).
  rewrite search_skip_prefix by exact Hpre.
  change (Lit "r" :: (lits "ateyourmusic.com/release/album/"
                        ++ [LazyGroup; Opt "/"; EndOfString])%list)
    with url_pattern.
  rewrite (search_here url_pattern _ i).
  - unfold rstrip_char. rewrite rstrip_by_fixed; auto.
  - unfold url_pattern. rewrite match_here_lits, match_here_group.
    rewrite lazy_any_takes_all by assumption. reflexivity.
Qed.

(** ** The URL patterns *)

Lemma slug_char_not_slash (c : ascii) :
  is_slug_char c = true -> Ascii.eqb c "/" = false.
Proof.
  intros H. destruct (Ascii.eqb c "/") eqn:Hc; [|reflexivity].
  apply Ascii.eqb_eq in Hc. subst c. discriminate.
Qed.

Lemma split_char_nonempty (c : ascii) (s : string) : split_char c s <> [].
Proof.
  destruct s as [|d s]; cbn [split_char]; [discriminate|].
  destruct (Ascii.eqb d c); [discriminate|].
  destruct (split_char c s); discriminate.
Qed.

Lemma join_split_char (c : ascii) (s : string) :
  join (String c "") (split_char c s) = s.
Proof.
  induction s as [|d s IH]; [reflexivity|].
  cbn [split_char]. pose proof (split_char_nonempty c s) as Hne.
  destruct (Ascii.eqb d c) eqn:Hd.
  - apply Ascii.eqb_eq in Hd. subst d.
    destruct (split_char c s) as [|h t]; [congruence|].
    change (join (String c "") ("" :: h :: t))
      with (String c (join (String c "") (h :: t))).
    now rewrite IH.
  - destruct (split_char c s) as [|h t]; [congruence|].
    destruct t as [|h' t].
    + cbn [join] in *. now rewrite IH.
    + change (join (String c "") (String d h :: h' :: t))
        with (String d (join (String c "") (h :: h' :: t))).
      now rewrite IH.
Qed.

Lemma split_char_slug (a : string) :
  all_chars is_slug_char a = true -> split_char "/" a = [a].
Proof.
  induction a as [|c a IH]; [reflexivity|].
  cbn [all_chars split_char]. intros H. apply andb_true_iff in H as [Hc Ha].
  rewrite (slug_char_not_slash c Hc), (IH Ha). reflexivity.
Qed.

Lemma split_char_slug_slash (a s : string) :
  all_chars is_slug_char a = true ->
  split_char "/" (a ++ String "/" s) = a :: split_char "/" s.
Proof.
  induction a as [|c a IH]; [reflexivity|].
  cbn [all_chars append split_char]. intros H.
  apply andb_true_iff in H as [Hc Ha].
  rewrite (slug_char_not_slash c Hc), (IH Ha). reflexivity.
Qed.

Lemma slug_plus_complete (k : string -> bool) (a rest : string) :
  a <> "" -> all_chars is_slug_char a = true -> k rest = true ->
  slug_plus k (a ++ rest) = true.
Proof.
  induction a as [|c a IH]; intros Hne Ha Hk; [congruence|].
  cbn [all_chars] in Ha. apply andb_true_iff in Ha as [Hc Ha].
  cbn [append slug_plus]. rewrite Hc.
  destruct a as [|d a].
  - cbn [append]. rewrite Hk. apply orb_true_r.
  - rewrite IH; [reflexivity | discriminate | exact Ha | exact Hk].
Qed.

Lemma slug_plus_sound (k : string -> bool) (s : string) :
  slug_plus k s = true ->
  exists a rest,
    s = a ++ rest /\ a <> "" /\ all_chars is_slug_char a = true
    /\ k rest = true.
Proof.
  induction s as [|c s IH]; [discriminate|].
  cbn [slug_plus]. destruct (is_slug_char c) eqn:Hc; [|discriminate].
  intros H. apply orb_true_iff in H as [H|H].
  - destruct (IH H) as (a & rest & -> & _ & Ha & Hk).
    exists (String c a), rest. repeat split; [discriminate | | exact Hk].
    cbn [all_chars]. now rewrite Hc, Ha.
  - exists (String c ""), s. repeat split; [discriminate | | exact H].
    cbn [all_chars]. now rewrite Hc.
Qed.

Lemma pmatch_plits (fin : string -> bool) (l : string) (p : list pitem)
    (s : string) :
  pmatch fin (plits l ++ p) (l ++ s) = pmatch fin p s.
Proof.
  induction l as [|c l IH]; [reflexivity|].
  unfold plits in *. cbn [list_ascii_of_string map app append pmatch].
  rewrite Ascii.eqb_refl. exact IH.
Qed.

Lemma pmatch_plits_sound (fin : string -> bool) (l : string)
    (p : list pitem) (s : string) :
  pmatch fin (plits l ++ p) s = true ->
  exists s', s = l ++ s' /\ pmatch fin p s' = true.
Proof.
  revert s. induction l as [|c l IH]; intros s H.
  - exists s. split; [reflexivity | exact H].
  - unfold plits in *. cbn [list_ascii_of_string map app pmatch] in H.
    destruct s as [|d s]; [discriminate|].
    apply andb_true_iff in H as [Hcd H].
    apply Ascii.eqb_eq in Hcd. subst d.
    destruct (IH _ H) as (s' & -> & Hm). exists s'. split; [reflexivity|exact Hm].
Qed.

(** What may follow the last segment in a fully matched URL. *)
Lemma opt_slash_end (s : string) :
  pmatch is_empty [POpt "/"] s = true -> s = "" \/ s = "/".
Proof.
  destruct s as [|c s]; [auto|]. cbn [pmatch].
  destruct (Ascii.eqb "/" c) eqn:Hc.
  - apply Ascii.eqb_eq in Hc. subst c.
    destruct s; [auto | discriminate].
  - discriminate.
Qed.

Lemma lit_slash_sound (k : string -> bool) (s : string) :
  pmatch k [] s = k s.
Proof. reflexivity. Qed.

Lemma canonical_two (a b : string) :
  a <> "" -> all_chars is_slug_char a = true ->
  b <> "" -> all_chars is_slug_char b = true ->
  canonical_id (a ++ "/" ++ b) = true.
Proof.
  intros Ha1 Ha2 Hb1 Hb2. unfold canonical_id.
  change (a ++ "/" ++ b) with (a ++ String "/" b).
  rewrite (split_char_slug_slash a b Ha2), (split_char_slug b Hb2).
  cbn [length Nat.eqb orb andb forallb]. unfold is_slug.
  rewrite Ha2, Hb2. destruct a; [congruence|]. destruct b; [congruence|].
  reflexivity.
Qed.

Lemma canonical_three (a b c : string) :
  a <> "" -> all_chars is_slug_char a = true ->
  b <> "" -> all_chars is_slug_char b = true ->
  c <> "" -> all_chars is_slug_char c = true ->
  canonical_id (a ++ "/" ++ b ++ "/" ++ c) = true.
Proof.
  intros Ha1 Ha2 Hb1 Hb2 Hc1 Hc2. unfold canonical_id.
  change (a ++ "/" ++ b ++ "/" ++ c) with (a ++ String "/" (b ++ String "/" c)).
  rewrite (split_char_slug_slash a _ Ha2), (split_char_slug_slash b c Hb2),
    (split_char_slug c Hc2).
  cbn [length Nat.eqb orb andb forallb]. unfold is_slug.
  rewrite Ha2, Hb2, Hc2.
  destruct a; [congruence|]. destruct b; [congruence|].
  destruct c; [congruence|]. reflexivity.
Qed.

Lemma rstrip_by_idem (p : ascii -> bool) (s : string) :
  rstrip_by p (rstrip_by p s) = rstrip_by p s.
Proof.
  induction s as [|c s IH]; [reflexivity|].
  cbn [rstrip_by]. destruct (rstrip_by p s) as [|d r] eqn:Hr.
  - destruct (p c) eqn:Hc; [reflexivity|].
    cbn [rstrip_by]. rewrite Hc. reflexivity.
  - cbn [rstrip_by]. cbn [rstrip_by] in IH. rewrite IH. reflexivity.
Qed.

Lemma rstrip_fixed_no_final_slash (i : string) :
  rstrip_char "/" i = i -> no_final_slash i.
Proof.
  intros H r c Hi. rewrite Hi in H.
  apply (rstrip_by_no_trailing (Ascii.eqb "/") (r ++ String c "") r c).
  exact H.
Qed.

Lemma append_cancel_l (a x y : string) : a ++ x = a ++ y -> x = y.
Proof.
  induction a as [|c a IH]; cbn [append]; intros H; [exact H|].
  injection H as H. apply IH, H.
Qed.

Lemma append_cancel_r_char (c : ascii) (x y : string) :
  x ++ String c "" = y ++ String c "" -> x = y.
Proof.
  revert y. induction x as [|d x IH]; intros y H.
  - destruct y as [|e y]; [reflexivity|].
    cbn [append] in H. injection H as _ H. destruct y; discriminate.
  - destruct y as [|e y]; cbn [append] in H.
    + injection H as _ H. destruct x; discriminate.
    + injection H as -> H. f_equal. apply IH, H.
Qed.

Lemma round_trip_when_normal (i : string) :
  no_newline i = true -> rstrip_char "/" i = i ->
  url_to_id (id_to_url i) = Some i.
Proof.
  intros Hnl Hfix. destruct i as [|c i]; [reflexivity|].
  apply url_to_id_id_to_url;
    [discriminate | exact Hnl | apply rstrip_fixed_no_final_slash, Hfix].
Qed.

(** A canonical identifier is read back from its URL, with or without
    the final slash. *)
Lemma decode_canonical (i tail : string) :
  canonical_id i = true -> tail = "" \/ tail = "/" ->
  url_to_id ("https://rateyourmusic.com/release/album/" ++ i ++ tail) = Some i
  /\ ("https://rateyourmusic.com/release/album/" ++ i ++ tail = id_to_url i
      \/ ("https://rateyourmusic.com/release/album/" ++ i ++ tail) ++ "/"
         = id_to_url i).
Proof.
  intros Hc Ht. destruct (canonical_id_text i Hc) as (Hne & Hnl & Hfs).
  split.
  - apply (url_to_id_of_text "https://" i tail); auto.
    destruct Ht as [-> | ->]; reflexivity.
  - unfold id_to_url. destruct Ht as [-> | ->].
    + right. rewrite append_nil_r, append_assoc. reflexivity.
    + left. reflexivity.
Qed.

(* ================================================================= *)
(** ** Further properties of the identifier/URL pair *)

(** X1: [url_to_id] undoes [id_to_url] exactly on the identifiers that
    have no newline and do not end in a slash. *)
Theorem X1_round_trip_exactly (i : string) :
  url_to_id (id_to_url i) = Some i
  <-> (no_newline i = true /\ rstrip_char "/" i = i).
Proof.
  split.
  - intros H.
    destruct (url_to_id_shape _ _ H) as (pre & grp & tail & _ & _ & Hnl & _ & ->).
    split.
    + apply rstrip_by_all_chars. exact Hnl.
    + apply rstrip_by_idem.
  - intros [Hnl Hfix]. now apply round_trip_when_normal.
Qed.

Lemma X1_round_trip_exactly_witness :
  url_to_id (id_to_url "miles-davis/kind-of-blue/2")
  = Some "miles-davis/kind-of-blue/2"
  /\ url_to_id (id_to_url "miles-davis/") <> Some "miles-davis/".
Proof.
  split.
  - apply (proj2 (X1_round_trip_exactly "miles-davis/kind-of-blue/2")).
    split; reflexivity.
  - intros H.
    apply (proj1 (X1_round_trip_exactly "miles-davis/")) in H.
    destruct H as [_ H]. vm_compute in H. discriminate.
Defined.

(** X2: [url_to_id] reads the identifier whatever precedes the host
    (a scheme, a www prefix: any text without the letter r) and whether
    or not the URL ends in a slash or a final newline. *)
Theorem X2_url_to_id_tolerant (pre i tail : string) :
  all_chars (fun c => negb (Ascii.eqb "r" c)) pre = true ->
  i <> "" -> no_newline i = true -> rstrip_char "/" i = i ->
  tail_ok tail = true ->
  url_to_id (pre ++ "rateyourmusic.com/release/album/" ++ i ++ tail) = Some i.
Proof.
  intros Hpre Hne Hnl Hfix Hok.
  apply url_to_id_of_text; auto using rstrip_fixed_no_final_slash.
Qed.

Lemma X2_url_to_id_tolerant_witness :
  url_to_id "http://www.rateyourmusic.com/release/album/miles-davis/kind-of-blue"
  = Some "miles-davis/kind-of-blue".
Proof.
  apply (X2_url_to_id_tolerant "http://www." "miles-davis/kind-of-blue" "");
    solve [reflexivity | discriminate].
Defined.

(** X3: an identifier returned by [url_to_id] has no newline, does not
    end in a slash, and is a fixed point: turned into a URL by
    [id_to_url] and read again, it comes back unchanged. *)
Theorem X3_url_to_id_normal_form (url i : string) :
  url_to_id url = Some i ->
  no_newline i = true /\ rstrip_char "/" i = i
  /\ url_to_id (id_to_url i) = Some i.
Proof.
  intros H.
  destruct (url_to_id_shape _ _ H) as (pre & grp & tail & _ & _ & Hnl & _ & ->).
  assert (H1 : no_newline (rstrip_char "/" grp) = true)
    by (apply rstrip_by_all_chars; exact Hnl).
  assert (H2 : rstrip_char "/" (rstrip_char "/" grp) = rstrip_char "/" grp)
    by apply rstrip_by_idem.
  split; [exact H1|]. split; [exact H2|].
  now apply round_trip_when_normal.
Qed.

Lemma X3_url_to_id_normal_form_witness :
  url_to_id (id_to_url "miles-davis/kind-of-blue")
  = Some "miles-davis/kind-of-blue".
Proof.
  apply (X3_url_to_id_normal_form
           "https://rateyourmusic.com/release/album/miles-davis/kind-of-blue//"
           "miles-davis/kind-of-blue").
  reflexivity.
Defined.

(** X4: [url_to_id] returns an identifier exactly for the URLs in which
    "rateyourmusic.com/release/album/" is followed by at least one
    character other than a newline and then the end of the URL, with an
    optional slash and an optional final newline in between; for every
    other URL it returns None. *)
Theorem X4_url_to_id_defined_iff (url : string) :
  (exists i, url_to_id url = Some i)
  <-> exists pre grp tail,
        url = pre ++ "rateyourmusic.com/release/album/" ++ grp ++ tail
        /\ grp <> "" /\ no_newline grp = true /\ tail_ok tail = true.
Proof.
  split.
  - intros [i H].
    destruct (url_to_id_shape _ _ H) as (pre & grp & tail & Hu & Hne & Hnl & Hok & _).
    exists pre, grp, tail. auto.
  - intros (pre & grp & tail & -> & Hne & Hnl & Hok).
    apply url_to_id_accepts; assumption.
Qed.

Lemma X4_url_to_id_defined_iff_witness :
  exists i,
    url_to_id "https://rateyourmusic.com/release/album/miles-davis/kind-of-blue/"
    = Some i.
Proof.
  apply (proj2 (X4_url_to_id_defined_iff
           "https://rateyourmusic.com/release/album/miles-davis/kind-of-blue/")).
  exists "https://", "miles-davis/kind-of-blue", "/".
  repeat split; solve [reflexivity | discriminate].
Defined.

(** X5: [id_to_url] is injective: it validates nothing and two
    different identifiers never get the same URL. *)
Theorem X5_id_to_url_injective (i j : string) :
  id_to_url i = id_to_url j -> i = j.
Proof.
  unfold id_to_url. intros H.
  apply append_cancel_l in H. apply (append_cancel_r_char "/"). exact H.
Qed.

Lemma X5_id_to_url_injective_witness :
  "miles-davis/kind-of-blue" = "miles-davis/kind-of-blue".
Proof.
  apply (X5_id_to_url_injective "miles-davis/kind-of-blue"
           "miles-davis/kind-of-blue").
  reflexivity.
Defined.

(** X6: the URL that [id_to_url] makes of a canonical identifier is
    matched, in full, by one of URL_PATTERNS. *)
Theorem X6_patterns_accept_canonical_urls (i : string) :
  canonical_id i = true ->
  exists p,
    In p URL_PATTERNS
    /\ re_fullmatch p (id_to_url i) = true.
Proof.
  intros H. pose proof H as Hc. unfold canonical_id in H. cbv zeta in H.
  apply andb_true_iff in H as [Hlen Hall].
  pose proof (join_split_char "/" i) as Hjoin.
  destruct (split_char "/" i) as [|a [|b [|c [|d l]]]];
    try discriminate.
  - cbn [forallb] in Hall.
    apply andb_true_iff in Hall as [Ha Hall].
    apply andb_true_iff in Hall as [Hb _].
    unfold is_slug in Ha, Hb.
    apply andb_true_iff in Ha as [Ha1 Ha2].
    apply andb_true_iff in Hb as [Hb1 Hb2].
    exists (nth 0 URL_PATTERNS []). split; [left; reflexivity|].
    rewrite <- Hjoin. unfold id_to_url, re_fullmatch.
    cbn [join nth URL_PATTERNS].
    rewrite pmatch_plits. cbn [pmatch].
    rewrite !append_assoc.
    apply slug_plus_complete;
      [destruct a; [discriminate | discriminate] | exact Ha2 |].
    cbn [append pmatch]. cbn [Ascii.eqb Bool.eqb andb].
    apply slug_plus_complete;
      [destruct b; [discriminate | discriminate] | exact Hb2 | reflexivity].
  - cbn [forallb] in Hall.
    apply andb_true_iff in Hall as [Ha Hall].
    apply andb_true_iff in Hall as [Hb Hall].
    apply andb_true_iff in Hall as [Hc' _].
    unfold is_slug in Ha, Hb, Hc'.
    apply andb_true_iff in Ha as [Ha1 Ha2].
    apply andb_true_iff in Hb as [Hb1 Hb2].
    apply andb_true_iff in Hc' as [Hc1 Hc2].
    exists (nth 1 URL_PATTERNS []). split; [right; left; reflexivity|].
    rewrite <- Hjoin. unfold id_to_url, re_fullmatch.
    cbn [join nth URL_PATTERNS].
    rewrite pmatch_plits. cbn [pmatch].
    rewrite !append_assoc.
    apply slug_plus_complete;
      [destruct a; [discriminate | discriminate] | exact Ha2 |].
    cbn [append pmatch]. cbn [Ascii.eqb Bool.eqb andb].
    apply slug_plus_complete;
      [destruct b; [discriminate | discriminate] | exact Hb2 |].
    cbn [append pmatch]. cbn [Ascii.eqb Bool.eqb andb].
    apply slug_plus_complete;
      [destruct c; [discriminate | discriminate] | exact Hc2 | reflexivity].
Qed.

Lemma X6_patterns_accept_canonical_urls_witness :
  exists p,
    In p URL_PATTERNS
    /\ re_fullmatch p (id_to_url "miles-davis/kind-of-blue/2") = true.
Proof.
  apply (X6_patterns_accept_canonical_urls "miles-davis/kind-of-blue/2").
  reflexivity.
Defined.

(** X7: a URL that one of URL_PATTERNS matches in full is read by
    [url_to_id] as a canonical identifier, and [id_to_url] of that
    identifier is the URL itself, with the final slash added when the
    URL had none. *)
Theorem X7_matched_urls_decode (p : list pitem) (url : string) :
  In p URL_PATTERNS -> re_fullmatch p url = true ->
  exists i,
    canonical_id i = true
    /\ url_to_id url = Some i
    /\ (url = id_to_url i \/ url ++ "/" = id_to_url i).
Proof.
  unfold URL_PATTERNS, re_fullmatch.
  intros [<- | [<- | []]] H;
    apply pmatch_plits_sound in H as (s1 & -> & H);
    cbn [pmatch] in H;
    apply slug_plus_sound in H as (a & r1 & -> & Ha1 & Ha2 & H);
    (destruct r1 as [|d1 r1]; [discriminate|]);
    apply andb_true_iff in H as [Hd1 H];
    apply Ascii.eqb_eq in Hd1; subst d1;
    apply slug_plus_sound in H as (b & r2 & -> & Hb1 & Hb2 & H).
  - apply opt_slash_end in H.
    exists (a ++ "/" ++ b).
    pose proof (canonical_two a b Ha1 Ha2 Hb1 Hb2) as Hc.
    destruct (decode_canonical (a ++ "/" ++ b) r2 Hc H) as [H1 H2].
    rewrite !append_assoc in H1, H2. cbn [append] in H1, H2.
    cbn [append]. split; [exact Hc|]. split; [exact H1 | exact H2].
  - destruct r2 as [|d2 r2]; [discriminate|].
    apply andb_true_iff in H as [Hd2 H].
    apply Ascii.eqb_eq in Hd2. subst d2.
    apply slug_plus_sound in H as (c & r3 & -> & Hc1 & Hc2 & H).
    apply opt_slash_end in H.
    exists (a ++ "/" ++ b ++ "/" ++ c).
    pose proof (canonical_three a b c Ha1 Ha2 Hb1 Hb2 Hc1 Hc2) as Hc.
    destruct (decode_canonical (a ++ "/" ++ b ++ "/" ++ c) r3 Hc H) as [H1 H2].
    rewrite !append_assoc in H1, H2. cbn [append] in H1, H2.
    cbn [append]. split; [exact Hc|]. split; [exact H1 | exact H2].
Qed.

Lemma X7_matched_urls_decode_witness :
  exists i,
    canonical_id i = true
    /\ url_to_id "https://rateyourmusic.com/release/album/miles-davis/kind-of-blue"
       = Some i
    /\ ("https://rateyourmusic.com/release/album/miles-davis/kind-of-blue"
        = id_to_url i
        \/ "https://rateyourmusic.com/release/album/miles-davis/kind-of-blue"
             ++ "/" = id_to_url i).
Proof.
  apply (X7_matched_urls_decode (nth 0 URL_PATTERNS [])
           "https://rateyourmusic.com/release/album/miles-davis/kind-of-blue").
  - left. reflexivity.
  - reflexivity.
Defined.

(* ================================================================= *)
(** ** Further facts about the extraction *)

Lemma lstrip_by_head (p : ascii -> bool) (s : string) :
  lstrip_by p s = ""
  \/ exists c t, lstrip_by p s = String c t /\ p c = false.
Proof.
  induction s as [|c s IH]; [left; reflexivity|].
  cbn [lstrip_by]. destruct (p c) eqn:Hc; [exact IH|].
  right. exists c, s. auto.
Qed.

Lemma rstrip_by_keeps_head (p : ascii -> bool) (c : ascii) (t : string) :
  p c = false -> exists t', rstrip_by p (String c t) = String c t'.
Proof.
  intros Hc. cbn [rstrip_by]. destruct (rstrip_by p t).
  - rewrite Hc. eauto.
  - eauto.
Qed.

(** Trimming twice is trimming once. *)
Lemma strip_idem (s : string) : strip (strip s) = strip s.
Proof.
  unfold strip.
  destruct (lstrip_by_head is_space s) as [-> | (c & t & -> & Hc)];
    [reflexivity|].
  destruct (rstrip_by_keeps_head is_space c t Hc) as [t' Ht'].
  assert (Hl : lstrip_by is_space (rstrip_by is_space (String c t))
               = rstrip_by is_space (String c t)).
  { rewrite Ht'. cbn [lstrip_by]. rewrite Hc. reflexivity. }
  rewrite Hl. apply rstrip_by_idem.
Qed.

Lemma stripped_nonblank_trimmed (l : list string) :
  Forall (fun s => s <> "" /\ trimmed s) (stripped_nonblank l).
Proof.
  unfold stripped_nonblank. induction l as [|x l IH]; [constructor|].
  cbn [filter]. destruct (is_empty (strip x)) eqn:Hx; cbn [negb map].
  - exact IH.
  - constructor; [|exact IH]. split.
    + intros H. rewrite H in Hx. discriminate.
    + apply strip_idem.
Qed.

Lemma split1_aux_sound (sep s a b : string) :
  split1_aux sep s = Some (a, b) -> s = a ++ sep ++ b.
Proof.
  assert (Hd : forall p t rest, drop_prefix p t = Some rest -> t = p ++ rest).
  { induction p as [|x p IHp]; intros t rest H.
    - cbn in H. injection H as <-. reflexivity.
    - destruct t as [|y t]; [discriminate|]. cbn [drop_prefix] in H.
      destruct (Ascii.eqb x y) eqn:Hxy; [|discriminate].
      apply Ascii.eqb_eq in Hxy. subst y.
      cbn [append]. f_equal. now apply IHp. }
  revert a b. induction s as [|c s IH]; intros a b H.
  - cbn [split1_aux] in H.
    destruct (drop_prefix sep "") eqn:Hp; [|discriminate].
    injection H as <- <-. apply Hd in Hp. exact Hp.
  - cbn [split1_aux] in H.
    destruct (drop_prefix sep (String c s)) eqn:Hp.
    + injection H as <- <-. apply Hd in Hp. exact Hp.
    + destruct (split1_aux sep s) as [[a' b']|] eqn:Hs; [|discriminate].
      injection H as <- <-. cbn [append]. f_equal. now apply IH.
Qed.

Lemma drop_prefix_app (p rest : string) : drop_prefix p (p ++ rest) = Some rest.
Proof.
  induction p as [|c p IH]; [reflexivity|].
  cbn [append drop_prefix]. rewrite Ascii.eqb_refl. exact IH.
Qed.

(** [split1] cuts at the first occurrence of the separator. *)
Lemma split1_aux_first (sep s a b a1 rest : string) :
  split1_aux sep s = Some (a, b) -> s = a1 ++ sep ++ rest ->
  String.length a <= String.length a1.
Proof.
  revert a b a1. induction s as [|c s IH]; intros a b a1 H Hs.
  - cbn [split1_aux] in H.
    destruct (drop_prefix sep ""); [|discriminate].
    injection H as <- _. apply Nat.le_0_l.
  - cbn [split1_aux] in H.
    destruct (drop_prefix sep (String c s)) eqn:Hp.
    + injection H as <- _. apply Nat.le_0_l.
    + destruct (split1_aux sep s) as [[a' b']|] eqn:Hs'; [|discriminate].
      injection H as <- _.
      destruct a1 as [|d a1].
      * cbn [append] in Hs. rewrite Hs, drop_prefix_app in Hp. discriminate.
      * cbn [append] in Hs. injection Hs as _ Hs.
        cbn [String.length]. apply le_n_S. eapply IH; eauto.
Qed.

Section MoreStepFacts.
Variable E : Collaborators.
Variable content : Document.

(** The title, once bound, is trimmed. *)
Lemma title_step_title_trimmed (t : string) :
  title (fst (title_step E content init_locals)) = Some t -> trimmed t.
Proof.
  unfold title_step, xpath, lift, bind, gets, modify, read, ret, trimmed.
  destruct (content q_og_title) as [[|u us]|e].
  - destruct (content q_title) as [[|v vs]|e1]; simpl;
      try (destruct (detect_language E _)); simpl; intros H;
      try discriminate; injection H as <-;
      solve [reflexivity | apply strip_idem].
  - destruct (contains " - " u) eqn:Hc.
    + destruct (contains_split1 _ _ Hc) as (a & b & ->). simpl.
      destruct (detect_language E _); simpl; intros H; injection H as <-;
        apply strip_idem.
    + simpl. destruct (detect_language E _); simpl; intros H;
        injection H as <-; apply strip_idem.
  - simpl. discriminate.
Qed.

(** What the title step makes of an og:title with a separator. *)
Lemma title_step_separator (t : string) (ts : list string) :
  content q_og_title = Ok (t :: ts) -> contains " - " t = true ->
  exists a b,
    t = a ++ " - " ++ b
    /\ (forall a1 rest, t = a1 ++ " - " ++ rest ->
          String.length a <= String.length a1)
    /\ artist (fst (title_step E content init_locals)) = [strip a]
    /\ title (fst (title_step E content init_locals)) = Some (strip b).
Proof.
  intros Hog Hc.
  unfold contains in Hc.
  destruct (split1_aux " - " t) as [[a b]|] eqn:Hs; [|discriminate].
  exists a, b. split; [now apply split1_aux_sound|].
  split; [intros a1 rest; now apply (split1_aux_first " - " t a b)|].
  unfold title_step, xpath, lift, bind, gets, modify, read, ret.
  rewrite Hog. unfold contains, split1. rewrite Hs. simpl.
  destruct (detect_language E _); simpl; auto.
Qed.

(** The artist step assigns nothing when an artist is already known. *)
Lemma artist_step_keeps_known_artist (l : list string) :
  l <> [] ->
  maintains (fun st => artist st = l) (artist_step content).
Proof.
  intros Hl st Hst.
  unfold artist_step, xpath, lift, bind, gets, modify, ret.
  destruct (content q_artist) as [ms|e]; [|exact Hst].
  simpl. rewrite Hst. destruct l; [congruence|].
  rewrite andb_false_r. exact Hst.
Qed.

Lemma other_steps_preserve_artist :
  Forall (preserves artist)
    [image_step content; date_step E content; genre_step content;
     track_step content; desc_step content].
Proof.
  repeat constructor;
    unfold image_step, date_step, genre_step, track_step, desc_step; frame.
Qed.

Lemma later_steps_keep_known_artist (l : list string) :
  l <> [] ->
  maintains (fun st => artist st = l)
    (run_steps
       [image_step content; artist_step content; date_step E content;
        genre_step content; track_step content; desc_step content]).
Proof.
  intros Hl. apply run_steps_maintains.
  pose proof other_steps_preserve_artist as H.
  inversion H as [|? ? H1 H']; subst.
  inversion H' as [|? ? H2 H'']; subst.
  inversion H'' as [|? ? H3 H''']; subst.
  inversion H''' as [|? ? H4 H'''']; subst.
  inversion H'''' as [|? ? H5 _]; subst.
  repeat (apply Forall_cons;
    [ first
        [ apply artist_step_keeps_known_artist; exact Hl
        | apply (preserves_maintains artist (fun x => x = l)); assumption ] | ]).
  apply Forall_nil.
Qed.

(** Entries of the genre and artist variables at any point. *)
Lemma genre_step_maintains_trimmed :
  maintains (fun st => Forall (fun s => s <> "" /\ trimmed s) (genre st))
    (genre_step content).
Proof.
  intros st H. unfold genre_step, xpath, lift, bind, modify, ret.
  destruct (content q_genre) as [[|m ms]|e]; simpl; auto.
  apply stripped_nonblank_trimmed.
Qed.

Lemma artist_step_maintains_trimmed :
  maintains (fun st => Forall trimmed (artist st)) (artist_step content).
Proof.
  intros st H. unfold artist_step, xpath, lift, bind, gets, modify, ret.
  destruct (content q_artist) as [[|m ms]|e]; simpl; auto.
  destruct (is_nil (artist st)); simpl; auto.
  eapply Forall_impl; [|apply stripped_nonblank_trimmed].
  intros a [_ Ha]. exact Ha.
Qed.

Lemma title_step_maintains_trimmed :
  maintains (fun st => Forall trimmed (artist st)) (title_step E content).
Proof.
  intros st H.
  unfold title_step, xpath, lift, bind, gets, modify, read, ret.
  destruct (content q_og_title) as [[|u us]|e]; simpl; auto.
  - destruct (content q_title) as [[|v vs]|e1]; simpl; auto;
      destruct (detect_language E _); simpl; auto.
  - destruct (contains " - " u) eqn:Hc.
    + destruct (contains_split1 _ _ Hc) as (a & b & ->). simpl.
      assert (Hf : Forall trimmed (artist st ++ [strip a])%list).
      { apply Forall_app. split; [exact H|].
        constructor; [apply strip_idem | constructor]. }
      destruct (detect_language E _); simpl; exact Hf.
    + simpl. destruct (detect_language E _); simpl; auto.
Qed.

Lemma steps_preserve_genre_but_one :
  Forall (preserves genre)
    [title_step E content; image_step content; artist_step content;
     date_step E content; track_step content; desc_step content].
Proof.
  repeat constructor;
    unfold title_step, image_step, artist_step, date_step, track_step,
      desc_step; frame.
Qed.

Lemma try_body_genre_trimmed :
  Forall (fun s => s <> "" /\ trimmed s)
    (genre (fst (try_body E content init_locals))).
Proof.
  apply (run_steps_maintains
           (fun st => Forall (fun s => s <> "" /\ trimmed s) (genre st))
           (steps E content)); [|constructor].
  pose proof steps_preserve_genre_but_one as H.
  inversion H as [|? ? H1 H']; subst.
  inversion H' as [|? ? H2 H'']; subst.
  inversion H'' as [|? ? H3 H''']; subst.
  inversion H''' as [|? ? H4 H'''']; subst.
  inversion H'''' as [|? ? H5 H6']; subst.
  inversion H6' as [|? ? H6 _]; subst.
  unfold steps.
  repeat (apply Forall_cons;
    [ first
        [ apply genre_step_maintains_trimmed
        | apply (preserves_maintains genre
            (fun x => Forall (fun s => s <> "" /\ trimmed s) x));
          assumption ] | ]).
  apply Forall_nil.
Qed.

Lemma try_body_artist_trimmed :
  Forall trimmed (artist (fst (try_body E content init_locals))).
Proof.
  apply (run_steps_maintains (fun st => Forall trimmed (artist st))
           (steps E content)); [|constructor].
  pose proof other_steps_preserve_artist as H.
  inversion H as [|? ? H1 H']; subst.
  inversion H' as [|? ? H2 H'']; subst.
  inversion H'' as [|? ? H3 H''']; subst.
  inversion H''' as [|? ? H4 H'''']; subst.
  inversion H'''' as [|? ? H5 _]; subst.
  unfold steps.
  repeat (apply Forall_cons;
    [ first
        [ apply title_step_maintains_trimmed
        | apply artist_step_maintains_trimmed
        | apply (preserves_maintains artist (fun x => Forall trimmed x));
          assumption ] | ]).
  apply Forall_nil.
Qed.

End MoreStepFacts.

(** ** Documents that agree on what the steps look at *)

Lemma first_match_cases (r1 r2 : result (list string)) :
  first_match r2 = first_match r1 ->
  (r1 = Ok [] /\ r2 = Ok [])
  \/ (exists x xs ys, r1 = Ok (x :: xs) /\ r2 = Ok (x :: ys))
  \/ (exists e, r1 = Raise e /\ r2 = Raise e).
Proof.
  destruct r1 as [[|x xs]|e1], r2 as [[|y ys]|e2]; simpl; intros H;
    try discriminate.
  - auto.
  - injection H as ->. right. left. eauto.
  - injection H as ->. right. right. eauto.
Qed.

Lemma try_body_first_matches (E : Collaborators) (c1 c2 : Document) :
  (forall q, is_meta_query q = true ->
     first_match (c2 q) = first_match (c1 q)) ->
  (forall q, is_meta_query q = false -> c2 q = c1 q) ->
  forall st, try_body E c2 st = try_body E c1 st.
Proof.
  intros Hmeta Hsame. unfold try_body. apply run_steps_ext. unfold steps.
  repeat (apply Forall2_cons; [intros st|]); [..|apply Forall2_nil].
  - unfold title_step, xpath, lift, bind.
    destruct (first_match_cases _ _ (Hmeta q_og_title eq_refl))
      as [[-> ->] | [(x & xs & ys & -> & ->) | (e & -> & ->)]];
      [|reflexivity|reflexivity].
    destruct (first_match_cases _ _ (Hmeta q_title eq_refl))
      as [[-> ->] | [(x & xs & ys & -> & ->) | (e & -> & ->)]];
      reflexivity.
  - unfold image_step, xpath, lift, bind.
    destruct (first_match_cases _ _ (Hmeta q_og_image eq_refl))
      as [[-> ->] | [(x & xs & ys & -> & ->) | (e & -> & ->)]];
      reflexivity.
  - unfold artist_step, xpath. rewrite Hsame; reflexivity.
  - unfold date_step, xpath. rewrite Hsame; reflexivity.
  - unfold genre_step, xpath. rewrite Hsame; reflexivity.
  - unfold track_step, xpath. rewrite Hsame; reflexivity.
  - unfold desc_step, xpath, lift, bind.
    destruct (first_match_cases _ _ (Hmeta q_og_description eq_refl))
      as [[-> ->] | [(x & xs & ys & -> & ->) | (e & -> & ->)]];
      reflexivity.
Qed.

Lemma try_body_ignores_page_artist (E : Collaborators) (c1 c2 : Document)
    (t : string) (ts m1 m2 : list string) :
  c1 q_og_title = Ok (t :: ts) -> contains " - " t = true ->
  (forall q, q <> q_artist -> c2 q = c1 q) ->
  c1 q_artist = Ok m1 -> c2 q_artist = Ok m2 ->
  try_body E c2 init_locals = try_body E c1 init_locals.
Proof.
  intros Hog Hc Hsame Ha1 Ha2.
  assert (Hog2 : c2 q_og_title = Ok (t :: ts)).
  { rewrite Hsame; [exact Hog | discriminate]. }
  assert (Ht : forall st, title_step E c2 st = title_step E c1 st).
  { intros st. unfold title_step, xpath, lift, bind.
    rewrite Hog, Hog2. reflexivity. }
  assert (Hi : forall st, image_step c2 st = image_step c1 st).
  { intros st. unfold image_step, xpath.
    rewrite Hsame; [reflexivity | discriminate]. }
  assert (Hrest : forall st,
            run_steps [date_step E c2; genre_step c2; track_step c2;
                       desc_step c2] st
            = run_steps [date_step E c1; genre_step c1; track_step c1;
                         desc_step c1] st).
  { apply run_steps_ext.
    repeat (apply Forall2_cons; [intros st|]); [..|apply Forall2_nil].
    - unfold date_step, xpath. rewrite Hsame; [reflexivity | discriminate].
    - unfold genre_step, xpath. rewrite Hsame; [reflexivity | discriminate].
    - unfold track_step, xpath. rewrite Hsame; [reflexivity | discriminate].
    - unfold desc_step, xpath. rewrite Hsame; [reflexivity | discriminate]. }
  destruct (title_step_separator E c1 t ts Hog Hc)
    as (a & b & _ & _ & Hart & _).
  unfold try_body, steps. cbn [run_steps].
  unfold bind at 1. unfold bind at 7. rewrite Ht.
  destruct (title_step E c1 init_locals) as [st1 [[]|e]] eqn:Hstep;
    [|reflexivity].
  simpl in Hart.
  unfold bind at 1. unfold bind at 6. rewrite Hi.
  pose proof (other_steps_preserve_artist E c1) as Hp.
  inversion Hp as [|? ? Hpi _]; subst.
  pose proof (Hpi st1) as Hart2. rewrite Hart in Hart2.
  destruct (image_step c1 st1) as [st2 [[]|e]]; [|reflexivity].
  simpl in Hart2.
  assert (Hskip : forall c m, c q_artist = Ok m ->
            artist_step c st2 = (st2, Ok tt)).
  { intros c m Hm. unfold artist_step, xpath, lift, bind, gets, modify, ret.
    rewrite Hm. simpl. rewrite Hart2. simpl. rewrite andb_false_r.
    reflexivity. }
  unfold bind at 1. unfold bind at 5.
  rewrite (Hskip c2 m2 Ha2), (Hskip c1 m1 Ha1).
  apply Hrest.
Qed.

(* ================================================================= *)
(** ** Further properties of the extraction *)

(** X8: [_extract_from_html] raises in exactly one situation: a title
    query that is consulted raises (the og:title query, or the
    page-title query after an og:title query without match).  The
    exception that reaches the caller is then UnboundLocalError for
    [title], not the one the query raised.  Whatever else fails, a
    record is returned. *)
Theorem X8_failure_exactly (E : Collaborators) (content : Document) (e : exn) :
  _extract_from_html E content = Raise e
  <-> (e = UnboundLocalError "title"
       /\ ((exists e', content q_og_title = Raise e')
           \/ (content q_og_title = Ok []
               /\ exists e', content q_title = Raise e'))).
Proof.
  split.
  - intros H.
    destruct (content q_og_title) as [[|t ts]|e0] eqn:Hog.
    + destruct (content q_title) as [ms|e1] eqn:Ht.
      * destruct (record_returned_when_title_queries_answer E content)
          as [r Hr]; [right; eauto | congruence].
      * rewrite (page_title_failure_escapes E content e1 Hog Ht) in H.
        injection H as <-. split; [reflexivity|]. right. eauto.
    + destruct (record_returned_when_title_queries_answer E content)
        as [r Hr]; [left; eauto | congruence].
    + rewrite (og_title_failure_escapes E content e0 Hog) in H.
      injection H as <-. split; [reflexivity|]. left. eauto.
  - intros [-> [[e' H] | [H1 [e' H2]]]].
    + apply (og_title_failure_escapes E content e' H).
    + apply (page_title_failure_escapes E content e' H1 H2).
Qed.

Lemma X8_failure_exactly_witness :
  _extract_from_html (collab detect_en parse_known)
    (failing_on q_title no_anchor)
  = Raise (UnboundLocalError "title").
Proof.
  apply (proj2 (X8_failure_exactly (collab detect_en parse_known)
                  (failing_on q_title no_anchor) (UnboundLocalError "title"))).
  split; [reflexivity|]. right. split; [reflexivity|].
  exists (Failure "xpath"). reflexivity.
Defined.

(** X9: the title of every returned record is not empty and carries no
    surrounding white space. *)
Theorem X9_title_trimmed (E : Collaborators) (content : Document)
    (r : ResourceContent) :
  _extract_from_html E content = Ok r ->
  exists s, field "title" r = Some (VStr s) /\ s <> "" /\ trimmed s.
Proof.
  unfold _extract_from_html. intros H.
  destruct (build_inv E _ _ H) as [t Ht].
  rewrite (build_ok E _ _ Ht) in H. injection H as <-.
  eexists. split; [reflexivity|].
  rewrite try_body_title in Ht.
  pose proof (title_step_title_trimmed E content t Ht) as Htr.
  destruct t as [|c t]; simpl.
  - split; [discriminate | reflexivity].
  - split; [discriminate | exact Htr].
Qed.

Lemma X9_title_trimmed_witness :
  exists r s,
    _extract_from_html (collab detect_en parse_known)
      (doc_of [ (q_og_title, ["  Miles Davis  -   Kind of Blue  "]) ]) = Ok r
    /\ field "title" r = Some (VStr s) /\ s <> "" /\ trimmed s.
Proof.
  eexists.
  assert (Hr : _extract_from_html (collab detect_en parse_known)
                 (doc_of [ (q_og_title, ["  Miles Davis  -   Kind of Blue  "]) ])
               = Ok ?[r]) by (vm_compute; reflexivity).
  destruct (X9_title_trimmed _ _ _ Hr) as (s & H).
  exists s. split; [exact Hr | exact H].
Defined.

(** X10: an og:title with the separator " - " is cut at its first
    occurrence (no occurrence starts earlier): the part before it,
    trimmed, is the only artist and the part after it, trimmed, is the
    title ("Unknown Album" when blank).
    The artist links of the page are then not used: two documents that
    differ in the matches of the artist query only give the same
    outcome. *)
Theorem X10_artist_from_og_title (E : Collaborators) (c1 c2 : Document)
    (t : string) (ts m1 m2 : list string) :
  c1 q_og_title = Ok (t :: ts) -> contains " - " t = true ->
  (forall q, q <> q_artist -> c2 q = c1 q) ->
  c1 q_artist = Ok m1 -> c2 q_artist = Ok m2 ->
  _extract_from_html E c2 = _extract_from_html E c1
  /\ exists a b r,
       t = a ++ " - " ++ b
       /\ (forall a1 rest, t = a1 ++ " - " ++ rest ->
             String.length a <= String.length a1)
       /\ _extract_from_html E c1 = Ok r
       /\ field "artist" r = Some (VList (list_set E [strip a]))
       /\ field "title" r
          = Some (VStr (if is_empty (strip b) then "Unknown Album"
                        else strip b)).
Proof.
  intros Hog Hc Hsame Ha1 Ha2. split.
  - unfold _extract_from_html.
    rewrite (try_body_ignores_page_artist E c1 c2 t ts m1 m2); auto.
  - destruct (title_step_separator E c1 t ts Hog Hc)
      as (a & b & Ht & Hfirst & Hart & Htitle).
    exists a, b.
    destruct (extract_title_fields E c1 _ Htitle) as (r & Hr & Hf & _).
    exists r. split; [exact Ht|]. split; [exact Hfirst|].
    split; [exact Hr|]. split; [|exact Hf].
    assert (Hfin : artist (fst (try_body E c1 init_locals)) = [strip a]).
    { rewrite try_body_unfold.
      destruct (title_step E c1 init_locals) as [st1 [[]|e]];
        simpl in Hart; [|exact Hart].
      apply (later_steps_keep_known_artist E c1 [strip a]);
        [discriminate | exact Hart]. }
    unfold _extract_from_html in Hr.
    destruct (build_inv E _ _ Hr) as [t' Ht'].
    rewrite (build_ok E _ _ Ht') in Hr. injection Hr as <-.
    unfold field. simpl. rewrite Hfin. reflexivity.
Qed.

Lemma X10_artist_from_og_title_witness :
  exists r,
    _extract_from_html (collab detect_en parse_known)
      (doc_of [ (q_og_title, ["Miles Davis - Kind of Blue - Live"]);
                (q_artist, ["Somebody Else"]) ]) = Ok r
    /\ field "artist" r = Some (VList ["Miles Davis"])
    /\ field "title" r = Some (VStr "Kind of Blue - Live").
Proof.
  assert (Hsame : forall q, q <> q_artist ->
            doc_of [ (q_og_title, ["Miles Davis - Kind of Blue - Live"]) ] q
            = doc_of [ (q_og_title, ["Miles Davis - Kind of Blue - Live"]);
                       (q_artist, ["Somebody Else"]) ] q).
  { intros q Hq. unfold doc_of. simpl.
    destruct (String.eqb q q_og_title); [reflexivity|].
    destruct (String.eqb_spec q q_artist); [contradiction | reflexivity]. }
  destruct (X10_artist_from_og_title (collab detect_en parse_known)
              (doc_of [ (q_og_title, ["Miles Davis - Kind of Blue - Live"]);
                        (q_artist, ["Somebody Else"]) ])
              (doc_of [ (q_og_title, ["Miles Davis - Kind of Blue - Live"]) ])
              "Miles Davis - Kind of Blue - Live" [] ["Somebody Else"] []
              eq_refl eq_refl Hsame eq_refl eq_refl)
    as (_ & a & b & r & Ht & _ & Hr & Hart & Htitle).
  exists r. split; [exact Hr|].
  assert (Hr' : _extract_from_html (collab detect_en parse_known)
      (doc_of [ (q_og_title, ["Miles Davis - Kind of Blue - Live"]);
                (q_artist, ["Somebody Else"]) ]) = Ok r) by exact Hr.
  vm_compute in Hr'. injection Hr' as <-. split; reflexivity.
Defined.

(** X11: of the og:title, page-title, og:image and og:description
    queries only the first match is used: two documents that give the
    same first match (or none, or the same failure) for each of them,
    and the same answer to every other query, give the same outcome. *)
Theorem X11_only_first_meta_match (E : Collaborators) (c1 c2 : Document) :
  (forall q, is_meta_query q = true ->
     first_match (c2 q) = first_match (c1 q)) ->
  (forall q, is_meta_query q = false -> c2 q = c1 q) ->
  _extract_from_html E c2 = _extract_from_html E c1.
Proof.
  intros Hmeta Hsame. unfold _extract_from_html.
  rewrite (try_body_first_matches E c1 c2 Hmeta Hsame). reflexivity.
Qed.

Lemma X11_only_first_meta_match_witness :
  _extract_from_html (collab detect_en parse_known)
    (doc_of [ (q_og_title, ["Kind of Blue"; "Another Title"]) ])
  = _extract_from_html (collab detect_en parse_known)
      (doc_of [ (q_og_title, ["Kind of Blue"]) ]).
Proof.
  apply (X11_only_first_meta_match (collab detect_en parse_known)
           (doc_of [ (q_og_title, ["Kind of Blue"]) ])
           (doc_of [ (q_og_title, ["Kind of Blue"; "Another Title"]) ])).
  - intros q _. unfold doc_of. simpl.
    destruct (String.eqb q q_og_title); reflexivity.
  - intros q Hq. unfold doc_of. simpl.
    destruct (String.eqb q q_og_title) eqn:Hq'; [|reflexivity].
    unfold is_meta_query in Hq. rewrite Hq' in Hq. discriminate.
Defined.

(** X12: provided [list(set(xs))] yields elements of [xs] only, every
    genre of a returned record is not empty and carries no surrounding
    white space, and every artist carries no surrounding white space. *)
Theorem X12_genres_and_artists_trimmed (E : Collaborators)
    (content : Document) (r : ResourceContent) :
  list_set_sound E ->
  _extract_from_html E content = Ok r ->
  exists gs ars,
    field "genre" r = Some (VList gs)
    /\ field "artist" r = Some (VList ars)
    /\ Forall (fun g => g <> "" /\ trimmed g) gs
    /\ Forall trimmed ars.
Proof.
  intros Hset. unfold _extract_from_html. intros H.
  destruct (build_inv E _ _ H) as [t Ht].
  rewrite (build_ok E _ _ Ht) in H. injection H as <-.
  do 2 eexists. split; [reflexivity|]. split; [reflexivity|].
  pose proof (try_body_genre_trimmed E content) as Hg.
  pose proof (try_body_artist_trimmed E content) as Ha.
  rewrite Forall_forall in Hg, Ha.
  split.
  - destruct (is_nil (genre _)); [constructor|].
    apply Forall_forall. intros x Hx. apply Hg, (Hset _ _ Hx).
  - destruct (is_nil (artist _)); [constructor|].
    apply Forall_forall. intros x Hx. apply Ha, (Hset _ _ Hx).
Qed.

Lemma X12_genres_and_artists_trimmed_witness :
  exists r gs ars,
    _extract_from_html (collab detect_en parse_known)
      (doc_of [ (q_artist, [" Miles Davis "; "  "]);
                (q_genre, [" Jazz"; "Jazz "; ""]) ]) = Ok r
    /\ field "genre" r = Some (VList gs)
    /\ field "artist" r = Some (VList ars)
    /\ Forall (fun g => g <> "" /\ trimmed g) gs
    /\ Forall trimmed ars.
Proof.
  eexists.
  assert (Hr : _extract_from_html (collab detect_en parse_known)
                 (doc_of [ (q_artist, [" Miles Davis "; "  "]);
                           (q_genre, [" Jazz"; "Jazz "; ""]) ])
               = Ok ?[r]) by (vm_compute; reflexivity).
  assert (Hset : list_set_sound (collab detect_en parse_known)).
  { intros l x Hx. simpl in Hx. apply nodup_In in Hx. exact Hx. }
  destruct (X12_genres_and_artists_trimmed _ _ _ Hset Hr) as (gs & ars & H).
  exists gs, ars. split; [exact Hr | exact H].
Defined.

(** ** Texts of the localized entries and the cover image *)

Lemma uniq_subset (l : list LocalizedText) (x : LocalizedText) :
  In x (uniq l) -> In x l.
Proof.
  induction l as [|y l IH]; [auto|].
  cbn [uniq]. intros [<- | H]; [left; reflexivity|].
  right. apply IH. apply filter_In in H. tauto.
Qed.

Section LocalizedFacts.
Variable E : Collaborators.
Variable content : Document.

Lemma title_step_maintains_title_text :
  maintains
    (fun st => Forall (fun x => trimmed (lt_text x)) (localized_title st))
    (title_step E content).
Proof.
  intros st H.
  assert (Hadd : forall l t, trimmed t ->
            Forall (fun x => trimmed (lt_text x))
              (localized_title st ++ [mkLT l t])%list).
  { intros l t Ht. apply Forall_app. split; [exact H|].
    constructor; [exact Ht | constructor]. }
  unfold title_step, xpath, lift, bind, gets, modify, read, ret.
  destruct (content q_og_title) as [[|u us]|e]; simpl; auto.
  - destruct (content q_title) as [[|v vs]|e1]; simpl; auto;
      destruct (detect_language E _); simpl; auto; apply Hadd;
      solve [reflexivity | apply strip_idem].
  - destruct (contains " - " u) eqn:Hc.
    + destruct (contains_split1 _ _ Hc) as (a & b & ->). simpl.
      destruct (detect_language E _); simpl; auto.
      apply Hadd, strip_idem.
    + simpl. destruct (detect_language E _); simpl; auto.
      apply Hadd, strip_idem.
Qed.

Lemma try_body_title_text :
  Forall (fun x => trimmed (lt_text x))
    (localized_title (fst (try_body E content init_locals))).
Proof.
  apply (run_steps_maintains
           (fun st => Forall (fun x => trimmed (lt_text x))
                        (localized_title st))
           (steps E content)); [|constructor].
  pose proof (later_steps_preserve_localized_title E content) as H.
  unfold steps. apply Forall_cons; [apply title_step_maintains_title_text|].
  eapply Forall_impl; [|exact H].
  intros s Hs.
  apply (preserves_maintains localized_title
           (fun l => Forall (fun x => trimmed (lt_text x)) l)). exact Hs.
Qed.

Lemma desc_step_maintains_desc_text :
  maintains
    (fun st => Forall (fun x => lt_text x <> "" /\ trimmed (lt_text x))
                 (localized_desc st))
    (desc_step content).
Proof.
  intros st H.
  unfold desc_step, xpath, lift, bind, gets, modify, read, ret.
  destruct (content q_og_description) as [[|d ds]|e]; simpl; auto.
  destruct (is_empty (strip d)) eqn:Hd; simpl; auto.
  destruct (lang st); simpl; auto.
  apply Forall_app. split; [exact H|].
  constructor; [|constructor]. simpl. split.
  - intros Hs. rewrite Hs in Hd. discriminate.
  - apply strip_idem.
Qed.

Lemma try_body_desc_text :
  Forall (fun x => lt_text x <> "" /\ trimmed (lt_text x))
    (localized_desc (fst (try_body E content init_locals))).
Proof.
  apply (run_steps_maintains
           (fun st => Forall (fun x => lt_text x <> "" /\ trimmed (lt_text x))
                        (localized_desc st))
           (steps E content)); [|constructor].
  pose proof (middle_steps_preserve_localized_desc E content) as H.
  unfold steps.
  apply Forall_cons.
  { apply (preserves_maintains localized_desc
             (fun l => Forall (fun x => lt_text x <> ""
                                        /\ trimmed (lt_text x)) l)).
    apply title_step_preserves_localized_desc. }
  change [image_step content; artist_step content; date_step E content;
          genre_step content; track_step content; desc_step content]
    with ([image_step content; artist_step content; date_step E content;
           genre_step content; track_step content]
          ++ [desc_step content])%list.
  apply Forall_app. split.
  - eapply Forall_impl; [|exact H].
    intros s Hs.
    apply (preserves_maintains localized_desc
             (fun l => Forall (fun x => lt_text x <> ""
                                        /\ trimmed (lt_text x)) l)).
    exact Hs.
  - constructor; [apply desc_step_maintains_desc_text | constructor].
Qed.

Lemma steps_preserve_image_url_but_one :
  preserves image_url (title_step E content)
  /\ Forall (preserves image_url)
       [artist_step content; date_step E content; genre_step content;
        track_step content; desc_step content].
Proof.
  split; [unfold title_step; frame|].
  repeat constructor;
    unfold artist_step, date_step, genre_step, track_step, desc_step; frame.
Qed.

Lemma image_step_value (st : Locals) (ms : list string) :
  content q_og_image = Ok ms -> image_url st = None ->
  image_url (fst (image_step content st)) = hd_error ms.
Proof.
  intros Hq Hn. unfold image_step, xpath, lift, bind, modify, ret.
  rewrite Hq. destruct ms; simpl; [exact Hn | reflexivity].
Qed.

Lemma try_body_image_url (st : Locals) (ms : list string) :
  title_step E content init_locals = (st, Ok tt) ->
  content q_og_image = Ok ms ->
  image_url (fst (try_body E content init_locals)) = hd_error ms.
Proof.
  intros Hstep Hq. rewrite try_body_unfold, Hstep.
  cbn [run_steps].
  destruct steps_preserve_image_url_but_one as [Ht Hrest].
  rewrite (bind_then_preserves image_url).
  - apply image_step_value; [exact Hq|].
    pose proof (Ht init_locals) as H. rewrite Hstep in H. exact H.
  - intros _. apply (run_steps_preserves image_url _ Hrest).
Qed.

End LocalizedFacts.

(** X13: in every returned record the text of each title entry carries
    no surrounding white space, and the text of each description entry
    is not empty and carries no surrounding white space. *)
Theorem X13_localized_texts_trimmed (E : Collaborators) (content : Document)
    (r : ResourceContent) :
  _extract_from_html E content = Ok r ->
  exists lts lds,
    field "localized_title" r = Some (VLocalized lts)
    /\ field "localized_description" r = Some (VLocalized lds)
    /\ Forall (fun x => trimmed (lt_text x)) lts
    /\ Forall (fun x => lt_text x <> "" /\ trimmed (lt_text x)) lds.
Proof.
  unfold _extract_from_html. intros H.
  destruct (build_inv E _ _ H) as [t Ht].
  rewrite (build_ok E _ _ Ht) in H. injection H as <-.
  do 2 eexists. split; [reflexivity|]. split; [reflexivity|].
  pose proof (try_body_title_text E content) as Hlt.
  pose proof (try_body_desc_text E content) as Hld.
  rewrite Forall_forall in Hlt, Hld.
  split.
  - destruct (is_nil (localized_title _)).
    + constructor; [reflexivity | constructor].
    + apply Forall_forall. intros x Hx. apply Hlt, uniq_subset, Hx.
  - apply Forall_forall. intros x Hx. apply Hld, uniq_subset, Hx.
Qed.

Lemma X13_localized_texts_trimmed_witness :
  exists r lts lds,
    _extract_from_html (collab detect_en parse_known)
      (doc_of [ (q_og_title, ["  Kind of Blue "]);
                (q_og_description, ["  A modal jazz album.  "]) ]) = Ok r
    /\ field "localized_title" r = Some (VLocalized lts)
    /\ field "localized_description" r = Some (VLocalized lds)
    /\ Forall (fun x => trimmed (lt_text x)) lts
    /\ Forall (fun x => lt_text x <> "" /\ trimmed (lt_text x)) lds.
Proof.
  eexists.
  assert (Hr : _extract_from_html (collab detect_en parse_known)
                 (doc_of [ (q_og_title, ["  Kind of Blue "]);
                           (q_og_description, ["  A modal jazz album.  "]) ])
               = Ok ?[r]) by (vm_compute; reflexivity).
  destruct (X13_localized_texts_trimmed _ _ _ Hr) as (lts & lds & H).
  exists lts, lds. split; [exact Hr | exact H].
Defined.

(** X14: once the title step has completed and the og:image query has
    answered, a record is returned whose cover_image_url is the first
    og:image match exactly as matched, neither trimmed nor checked, and
    None when there is no match; nothing that fails later changes it. *)
Theorem X14_cover_image_verbatim (E : Collaborators) (content : Document)
    (st : Locals) (ms : list string) :
  title_step E content init_locals = (st, Ok tt) ->
  content q_og_image = Ok ms ->
  exists r,
    _extract_from_html E content = Ok r
    /\ field "cover_image_url" r = Some (opt_value (hd_error ms)).
Proof.
  intros Hstep Hq. unfold _extract_from_html.
  assert (Hpre : run_steps [title_step E content] init_locals = (st, Ok tt)).
  { cbn [run_steps]. rewrite (bind_ok _ _ _ _ _ Hstep). reflexivity. }
  pose proof (prefix_ok_title_bound E content _ _ Hpre) as Hb.
  destruct (title (fst (try_body E content init_locals))) as [t|] eqn:Ht;
    [|congruence].
  rewrite (build_ok E _ _ Ht). eexists. split; [reflexivity|].
  unfold field. simpl.
  rewrite (try_body_image_url E content st ms Hstep Hq). reflexivity.
Qed.

Lemma X14_cover_image_verbatim_witness :
  exists r,
    _extract_from_html (collab detect_en parse_raising)
      (doc_of [ (q_og_image, ["  cover.jpg "; "other.jpg"]);
                (q_date, ["1959"]) ]) = Ok r
    /\ field "cover_image_url" r = Some (VStr "  cover.jpg ").
Proof.
  refine (X14_cover_image_verbatim (collab detect_en parse_raising)
            (doc_of [ (q_og_image, ["  cover.jpg "; "other.jpg"]);
                      (q_date, ["1959"]) ])
            _ ["  cover.jpg "; "other.jpg"] _ _).
  - vm_compute. reflexivity.
  - reflexivity.
Defined.

(** X15: a document without any of the anchors gives the all-default
    record: the title "Unknown Album" with its language entry, empty
    description, artist and genre, and no release date, track list,
    duration or cover image.  Neither the date parser nor the set
    conversion is called. *)
Theorem X15_no_anchor_record (E : Collaborators) (content : Document) :
  (forall q, content q = Ok []) ->
  _extract_from_html E content
  = Ok (mkResourceContent
      [ ("title", VStr "Unknown Album");
        ("localized_title",
          VLocalized
            [mkLT (match detect_language E "Unknown Album" with
                   | Ok l => l
                   | Raise _ => "en"
                   end) "Unknown Album"]);
        ("localized_description", VLocalized []);
        ("artist", VList []);
        ("genre", VList []);
        ("release_date", VNone);
        ("track_list", VNone);
        ("duration", VNone);
        ("cover_image_url", VNone) ]).
Proof.
  intros H.
  unfold _extract_from_html, try_body, steps, run_steps, title_step,
    image_step, artist_step, date_step, genre_step, track_step, desc_step,
    xpath, lift, bind, gets, modify, read, ret.
  rewrite !H. simpl.
  destruct (detect_language E "Unknown Album"); reflexivity.
Qed.

Lemma X15_no_anchor_record_witness :
  exists r,
    _extract_from_html (collab detect_x parse_raising) no_anchor = Ok r
    /\ field "title" r = Some (VStr "Unknown Album")
    /\ field "release_date" r = Some VNone.
Proof.
  eexists. split.
  - apply (X15_no_anchor_record (collab detect_x parse_raising) no_anchor).
    intros q. reflexivity.
  - split; reflexivity.
Defined.

(** X16: as prefix matchers ([re.match]), the first of URL_PATTERNS
    accepts every URL that the second accepts: the two-segment pattern
    does not require the URL to end after the second segment. *)
Theorem X16_first_pattern_shadows_second (url : string) :
  re_match (nth 1 URL_PATTERNS []) url = true ->
  re_match (nth 0 URL_PATTERNS []) url = true.
Proof.
  unfold re_match. cbn [nth URL_PATTERNS]. intros H.
  apply pmatch_plits_sound in H as (s1 & -> & H).
  cbn [pmatch] in H.
  apply slug_plus_sound in H as (a & r1 & -> & Ha1 & Ha2 & H).
  destruct r1 as [|d1 r1]; [discriminate|].
  apply andb_true_iff in H as [Hd1 H].
  apply Ascii.eqb_eq in Hd1. subst d1.
  apply slug_plus_sound in H as (b & r2 & -> & Hb1 & Hb2 & H).
  destruct r2 as [|d2 r2]; [discriminate|].
  apply andb_true_iff in H as [Hd2 _].
  apply Ascii.eqb_eq in Hd2. subst d2.
  rewrite pmatch_plits. cbn [pmatch].
  apply slug_plus_complete; [exact Ha1 | exact Ha2 |].
  cbn [Ascii.eqb Bool.eqb andb].
  apply slug_plus_complete; [exact Hb1 | exact Hb2 |].
  reflexivity.
Qed.

Lemma X16_first_pattern_shadows_second_witness :
  re_match (nth 0 URL_PATTERNS [])
    "https://rateyourmusic.com/release/album/miles-davis/kind-of-blue/2/"
  = true.
Proof.
  apply (X16_first_pattern_shadows_second
    "https://rateyourmusic.com/release/album/miles-davis/kind-of-blue/2/").
  reflexivity.
Defined.

(** ** Where exceptions come from *)

Section RaiseFacts.
Variable E : Collaborators.
Variable content : Document.

Lemma title_step_raise_origin (st st' : Locals) (e : exn) :
  title_step E content st = (st', Raise e) -> raised_outside E content e.
Proof.
  unfold title_step, xpath, lift, bind, gets, modify, read, ret,
    raised_outside.
  destruct (content q_og_title) as [[|u us]|e0] eqn:Hog.
  - destruct (content q_title) as [[|v vs]|e1] eqn:Ht; simpl;
      try (destruct (detect_language E _) as [l|e2] eqn:Hl; [discriminate|]);
      intros H; injection H as _ <-; eauto.
  - destruct (contains " - " u) eqn:Hc.
    + destruct (contains_split1 _ _ Hc) as (a & b & ->). simpl.
      destruct (detect_language E _) as [l|e2] eqn:Hl; [discriminate|].
      intros H; injection H as _ <-; eauto.
    + simpl. destruct (detect_language E _) as [l|e2] eqn:Hl; [discriminate|].
      intros H; injection H as _ <-; eauto.
  - intros H; injection H as _ <-; eauto.
Qed.

Lemma middle_step_raise_origin (s : M unit) (st st' : Locals) (e : exn) :
  In s [image_step content; artist_step content; date_step E content;
        genre_step content; track_step content] ->
  s st = (st', Raise e) -> raised_outside E content e.
Proof.
  simpl. intros [<-|[<-|[<-|[<-|[<-|[]]]]]];
    unfold image_step, artist_step, date_step, genre_step, track_step,
      xpath, lift, bind, gets, modify, read, ret, raised_outside.
  - destruct (content q_og_image) as [[|u us]|e0] eqn:Hq; intros H;
      try discriminate; injection H as _ <-; eauto.
  - destruct (content q_artist) as [[|u us]|e0] eqn:Hq; simpl;
      try destruct (is_nil (artist st)); simpl; intros H;
      try discriminate; injection H as _ <-; eauto.
  - destruct (content q_date) as [[|u us]|e0] eqn:Hq; simpl;
      try destruct (dateparser_parse E _) as [[d|]|e1] eqn:Hp; simpl;
      intros H; try discriminate; injection H as _ <-; eauto.
  - destruct (content q_genre) as [[|u us]|e0] eqn:Hq; simpl; intros H;
      try discriminate; injection H as _ <-; eauto.
  - destruct (content q_tracks) as [[|u us]|e0] eqn:Hq; simpl; intros H;
      try discriminate; injection H as _ <-; eauto.
Qed.

Lemma desc_step_raise_origin (st st' : Locals) (e : exn) (l : string) :
  lang st = Some l ->
  desc_step content st = (st', Raise e) -> raised_outside E content e.
Proof.
  intros Hl.
  unfold desc_step, xpath, lift, bind, gets, modify, read, ret,
    raised_outside.
  destruct (content q_og_description) as [[|u us]|e0] eqn:Hq; simpl;
    try destruct (is_empty (strip u)); simpl; rewrite ?Hl; simpl;
    intros H; try discriminate; injection H as _ <-; eauto.
Qed.

Lemma run_steps_raise_origin (P : exn -> Prop) (l : list (M unit)) :
  (forall s st st' e, In s l -> s st = (st', Raise e) -> P e) ->
  forall st st' e, run_steps l st = (st', Raise e) -> P e.
Proof.
  induction l as [|s l IH]; intros Hall st st' e H.
  - discriminate.
  - cbn [run_steps] in H. unfold bind in H.
    destruct (s st) as [st1 [[]|e1]] eqn:Hs.
    + apply (IH (fun s0 a b c Hin => Hall s0 a b c (or_intror Hin)) _ _ _ H).
    + injection H as _ <-. apply (Hall s st st1 e1 (or_introl eq_refl) Hs).
Qed.

Lemma try_body_raise_origin (st' : Locals) (e : exn) :
  try_body E content init_locals = (st', Raise e) ->
  raised_outside E content e.
Proof.
  rewrite try_body_unfold.
  destruct (title_step E content init_locals) as [st1 [[]|e1]] eqn:Hstep.
  - destruct (title_step_ok E content _ _ Hstep) as (t & l & _ & Hl & _).
    change [image_step content; artist_step content; date_step E content;
            genre_step content; track_step content; desc_step content]
      with ([image_step content; artist_step content; date_step E content;
             genre_step content; track_step content]
            ++ [desc_step content])%list.
    rewrite run_steps_app.
    pose proof (run_steps_preserves lang _
                  (middle_steps_preserve_lang E content) st1) as Hlang.
    destruct (run_steps _ st1) as [st2 [[]|e2]] eqn:Hmid.
    + simpl in Hlang. cbn [run_steps]. unfold bind.
      destruct (desc_step content st2) as [st3 [[]|e3]] eqn:Hd.
      * discriminate.
      * intros H. injection H as _ <-.
        apply (desc_step_raise_origin st2 st3 e3 l); [congruence | exact Hd].
    + intros H. injection H as _ <-.
      apply (run_steps_raise_origin (raised_outside E content) _
               (fun s a b c Hin Hs => middle_step_raise_origin s a b c Hin Hs)
               _ _ _ Hmid).
  - intros H. injection H as _ <-.
    apply (title_step_raise_origin _ _ _ Hstep).
Qed.

End RaiseFacts.

(** X17: the [try] block never fails by itself: indexing the first
    match, unpacking the split title and reading [title] and [lang]
    are all guarded.  Any exception raised in it was raised by the
    query engine, the language detector or the date parser. *)
Theorem X17_try_block_raises_only_from_outside (E : Collaborators)
    (content : Document) (st : Locals) (e : exn) :
  try_body E content init_locals = (st, Raise e) ->
  raised_outside E content e.
Proof. apply try_body_raise_origin. Qed.

Lemma X17_try_block_raises_only_from_outside_witness :
  raised_outside (collab detect_en parse_raising) kind_of_blue
    (Failure "dateparser").
Proof.
  refine (X17_try_block_raises_only_from_outside
            (collab detect_en parse_raising) kind_of_blue _
            (Failure "dateparser") _).
  vm_compute. reflexivity.
Defined.

(* ================================================================= *)
(** ** The code against the words of the specification *)

Lemma lstrip_by_split (p : ascii -> bool) (s : string) :
  exists a, s = a ++ lstrip_by p s /\ all_chars p a = true.
Proof.
  induction s as [|c s IH].
  - exists "". split; reflexivity.
  - cbn [lstrip_by]. destruct (p c) eqn:Hc.
    + destruct IH as (a & Hs & Ha). exists (String c a). split.
      * cbn [append]. f_equal. exact Hs.
      * cbn [all_chars]. now rewrite Hc, Ha.
    + exists "". split; reflexivity.
Qed.

Lemma rstrip_by_split (p : ascii -> bool) (s : string) :
  exists b, s = rstrip_by p s ++ b /\ all_chars p b = true.
Proof.
  induction s as [|c s IH].
  - exists "". split; reflexivity.
  - destruct IH as (b & Hs & Hb). cbn [rstrip_by].
    destruct (rstrip_by p s) as [|d r] eqn:Hr.
    + cbn [append] in Hs. subst b.
      destruct (p c) eqn:Hc.
      * exists (String c s). split; [reflexivity|].
        cbn [all_chars]. now rewrite Hc, Hb.
      * exists s. split; [reflexivity | exact Hb].
    + exists b. split; [|exact Hb]. cbn [append]. f_equal. exact Hs.
Qed.

Lemma lstrip_by_spaces (p : ascii -> bool) (a x : string) :
  all_chars p a = true -> lstrip_by p (a ++ x) = lstrip_by p x.
Proof.
  induction a as [|c a IH]; [reflexivity|].
  cbn [all_chars append lstrip_by]. intros H.
  apply andb_true_iff in H as [Hc Ha]. rewrite Hc. apply IH, Ha.
Qed.

Lemma lstrip_by_all_spaces (p : ascii -> bool) (b : string) :
  all_chars p b = true -> lstrip_by p b = "".
Proof.
  intros H. rewrite <- (append_nil_r b), lstrip_by_spaces by exact H.
  reflexivity.
Qed.

Lemma rstrip_by_all_spaces (p : ascii -> bool) (b : string) :
  all_chars p b = true -> rstrip_by p b = "".
Proof.
  induction b as [|c b IH]; [reflexivity|].
  cbn [all_chars rstrip_by]. intros H.
  apply andb_true_iff in H as [Hc Hb]. now rewrite (IH Hb), Hc.
Qed.

Lemma rstrip_by_spaces (p : ascii -> bool) (t b : string) :
  all_chars p b = true -> rstrip_by p (t ++ b) = rstrip_by p t.
Proof.
  intros Hb. induction t as [|c t IH].
  - cbn [append]. now apply rstrip_by_all_spaces.
  - cbn [append rstrip_by]. now rewrite IH.
Qed.

(** The white space of the specification is the one of [str.strip]. *)
Lemma white_space_is_space (c : ascii) : white_space c = is_space c.
Proof. destruct c as [[] [] [] [] [] [] [] []]; vm_compute; reflexivity. Qed.

Lemma blank_all_chars (s : string) : blank s = all_chars is_space s.
Proof.
  induction s as [|c s IH]; [reflexivity|].
  cbn [blank all_chars]. now rewrite white_space_is_space, IH.
Qed.

(** [strip] trims, and trimming has one outcome. *)
Lemma strip_trim_of (s : string) : trim_of s (strip s).
Proof.
  unfold trim_of, strip.
  destruct (lstrip_by_split is_space s) as (a & Hs & Ha).
  destruct (rstrip_by_split is_space (lstrip_by is_space s)) as (b & Ht & Hb).
  exists a, b. rewrite !blank_all_chars.
  split; [|split; [exact Ha|split; [exact Hb|split]]].
  - rewrite <- Ht. exact Hs.
  - destruct (lstrip_by_head is_space s) as [-> | (c & t & -> & Hc)];
      [reflexivity|].
    destruct (rstrip_by_keeps_head is_space c t Hc) as [t' ->].
    cbn [starts_clean]. now rewrite white_space_is_space, Hc.
  - intros r c H. rewrite white_space_is_space.
    apply (rstrip_by_no_trailing is_space _ r c H).
Qed.

Lemma trim_of_strip (s t : string) : trim_of s t -> strip s = t.
Proof.
  intros (a & b & -> & Ha & Hb & Hst & Hen). unfold strip.
  rewrite blank_all_chars in Ha, Hb.
  rewrite lstrip_by_spaces by exact Ha.
  destruct t as [|c t].
  - cbn [append]. rewrite lstrip_by_all_spaces by exact Hb. reflexivity.
  - cbn [starts_clean] in Hst. apply negb_true_iff in Hst.
    rewrite white_space_is_space in Hst.
    cbn [append lstrip_by]. rewrite Hst.
    change (String c (t ++ b)) with (String c t ++ b).
    rewrite rstrip_by_spaces by exact Hb.
    apply rstrip_by_fixed. intros r d H.
    rewrite <- white_space_is_space. exact (Hen r d H).
Qed.

Lemma blank_strip (s : string) : blank s = true -> strip s = "".
Proof.
  rewrite blank_all_chars.
  intros H. unfold strip. now rewrite lstrip_by_all_spaces.
Qed.

Lemma stripped_nonblank_cons (s : string) (ms : list string) :
  stripped_nonblank (s :: ms)
  = if is_empty (strip s) then stripped_nonblank ms
    else strip s :: stripped_nonblank ms.
Proof.
  unfold stripped_nonblank. cbn [filter].
  destruct (is_empty (strip s)); reflexivity.
Qed.

(** The comprehension of the code keeps exactly the trimmed texts of the
    matches that are not blank. *)
Lemma kept_trimmed_stripped (ms : list string) :
  kept_trimmed ms (stripped_nonblank ms).
Proof.
  induction ms as [|s ms IH]; [constructor|].
  rewrite stripped_nonblank_cons.
  destruct (is_empty (strip s)) eqn:He.
  - apply kept_blank; [|exact IH]. rewrite blank_all_chars.
    apply strip_blank. destruct (strip s); [reflexivity | discriminate].
  - apply kept_text; [apply strip_trim_of | | exact IH].
    intros H. rewrite H in He. discriminate.
Qed.

Lemma kept_trimmed_unique (ms ts : list string) :
  kept_trimmed ms ts -> ts = stripped_nonblank ms.
Proof.
  induction 1 as [|s ms ts Hb _ IH|s t ms ts Ht Hne _ IH].
  - reflexivity.
  - rewrite stripped_nonblank_cons, (blank_strip s Hb). exact IH.
  - rewrite stripped_nonblank_cons, (trim_of_strip s t Ht).
    destruct t; [congruence|]. cbn [is_empty]. now rewrite IH.
Qed.

Lemma joined_join (sep : string) (l : list string) : joined sep l (join sep l).
Proof.
  induction l as [|x l IH]; [constructor|].
  destruct l as [|y l]; [constructor|].
  change (join sep (x :: y :: l)) with (x ++ sep ++ join sep (y :: l)).
  constructor. exact IH.
Qed.

Lemma joined_unique (sep : string) (l : list string) (text : string) :
  joined sep l text -> text = join sep l.
Proof.
  induction 1 as [|x|x y l text _ IH]; [reflexivity | reflexivity|].
  change (join sep (x :: y :: l)) with (x ++ sep ++ join sep (y :: l)).
  now rewrite IH.
Qed.

Lemma enumerate_from_length {A : Type} (k : nat) (l : list A) :
  length (enumerate_from k l) = length l.
Proof.
  revert k. induction l as [|x l IH]; intros k; [reflexivity|].
  cbn [enumerate_from length]. now rewrite IH.
Qed.

Lemma numbered_lines_numbered (ts : list string) :
  numbered_lines ts (numbered ts).
Proof.
  split.
  - unfold numbered, enumerate. now rewrite length_map, enumerate_from_length.
  - intros i t H. apply (numbered_from_nth ts 0 i t H).
Qed.

Lemma numbered_lines_unique (ts lines : list string) :
  numbered_lines ts lines -> lines = numbered ts.
Proof.
  intros [Hlen Hnth].
  destruct (numbered_lines_numbered ts) as [Hlen' Hnth'].
  apply nth_error_ext. intros i.
  destruct (nth_error ts i) as [t|] eqn:Ht.
  - now rewrite (Hnth i t Ht), (Hnth' i t Ht).
  - apply nth_error_None in Ht.
    assert (H1 : nth_error lines i = None)
      by (apply nth_error_None; rewrite Hlen; exact Ht).
    assert (H2 : nth_error (numbered ts) i = None)
      by (apply nth_error_None; rewrite Hlen'; exact Ht).
    now rewrite H1, H2.
Qed.








Lemma track_rule_spec (ms : list string) :
  exists ts,
    kept_trimmed ms ts
    /\ (forall ts', kept_trimmed ms ts' -> ts' = ts)
    /\ track_list_of ts (track_rule ms).
Proof.
  exists (stripped_nonblank ms).
  split; [apply kept_trimmed_stripped|].
  split; [apply kept_trimmed_unique|].
  unfold track_rule, track_list_of.
  destruct (stripped_nonblank ms) as [|t ts]; [reflexivity|].
  exists (numbered (t :: ts)), (join newline_str (numbered (t :: ts))).
  split; [apply numbered_lines_numbered|].
  split; [apply joined_join | reflexivity].
Qed.

Section SpecFacts.
Variable E : Collaborators.
Variable content : Document.


Lemma track_list_when_query_fails (e : exn) (r : ResourceContent) :
  content q_tracks = Raise e ->
  _extract_from_html E content = Ok r ->
  field "track_list" r = Some VNone.
Proof.
  intros Hq H.
  destruct (track_list_never_partial E content r H)
    as [Hn | (ms & Hms & _)]; [exact Hn | congruence].
Qed.

(** The description step on its own. *)
Lemma desc_step_exact (st : Locals) (l : string) (ds : list string) :
  localized_desc st = [] -> lang st = Some l ->
  content q_og_description = Ok ds ->
  description_of l ds (localized_desc (fst (desc_step content st))).
Proof.
  intros Hd Hl Hq.
  unfold desc_step, xpath, lift, bind, gets, modify, read, ret,
    description_of.
  rewrite Hq. destruct ds as [|d ds]; simpl; [exact Hd|].
  destruct (is_empty (strip d)) eqn:He; simpl.
  - left. split; [|exact Hd]. rewrite blank_all_chars.
    apply strip_blank. destruct (strip d); [reflexivity | discriminate].
  - rewrite Hl. simpl. rewrite Hd. right. exists (strip d).
    split; [apply strip_trim_of|]. split; [|reflexivity].
    intros H. rewrite H in He. discriminate.
Qed.

(** The local variables when the six steps before the description step
    have completed. *)
Lemma before_desc_step (st : Locals) :
  run_steps
    [title_step E content; image_step content; artist_step content;
     date_step E content; genre_step content; track_step content]
    init_locals = (st, Ok tt) ->
  exists t l,
    title (fst (title_step E content init_locals)) = Some t
    /\ detect_language E t = Ok l
    /\ lang st = Some l /\ localized_desc st = [].
Proof.
  cbn [run_steps]. unfold bind at 1.
  destruct (title_step E content init_locals) as [st1 [[]|e]] eqn:Hstep;
    [|discriminate].
  intros Hmid.
  destruct (title_step_ok E content _ _ Hstep) as (t & l & H1 & H2 & H3 & _).
  exists t, l. split; [exact H1|]. split; [exact H3|].
  pose proof (run_steps_preserves lang _
                (middle_steps_preserve_lang E content) st1) as Hl.
  pose proof (run_steps_preserves localized_desc _
                (middle_steps_preserve_localized_desc E content) st1) as Hd.
  cbn [run_steps] in Hl, Hd. rewrite Hmid in Hl, Hd. simpl in Hl, Hd.
  pose proof (title_step_preserves_localized_desc E content init_locals) as Hd0.
  rewrite Hstep in Hd0. simpl in Hd0.
  split; congruence.
Qed.

Lemma try_body_desc (st : Locals) :
  run_steps
    [title_step E content; image_step content; artist_step content;
     date_step E content; genre_step content; track_step content]
    init_locals = (st, Ok tt) ->
  localized_desc (fst (try_body E content init_locals))
  = localized_desc (fst (desc_step content st)).
Proof.
  intros Hpre.
  change (try_body E content init_locals)
    with (run_steps
            ([title_step E content; image_step content; artist_step content;
              date_step E content; genre_step content; track_step content]
             ++ [desc_step content]) init_locals).
  rewrite run_steps_app, Hpre. cbn [run_steps].
  apply (bind_then_preserves localized_desc).
  intros _. apply preserves_ret.
Qed.

Lemma desc_absent_when_not_reached (st : Locals) (e : exn) :
  run_steps
    [title_step E content; image_step content; artist_step content;
     date_step E content; genre_step content; track_step content]
    init_locals = (st, Raise e) ->
  localized_desc (fst (try_body E content init_locals)) = [].
Proof.
  intros Hpre.
  rewrite (try_body_prefix_raise E content
             [title_step E content; image_step content; artist_step content;
              date_step E content; genre_step content; track_step content]
             [desc_step content] st e eq_refl Hpre).
  assert (Hall : Forall (preserves localized_desc)
            [title_step E content; image_step content; artist_step content;
             date_step E content; genre_step content; track_step content]).
  { constructor; [apply title_step_preserves_localized_desc|].
    apply middle_steps_preserve_localized_desc. }
  pose proof (run_steps_preserves localized_desc _ Hall init_locals) as H.
  rewrite Hpre in H. exact H.
Qed.

Lemma desc_absent_when_query_fails (st : Locals) (e : exn) :
  run_steps
    [title_step E content; image_step content; artist_step content;
     date_step E content; genre_step content; track_step content]
    init_locals = (st, Ok tt) ->
  content q_og_description = Raise e ->
  localized_desc (fst (try_body E content init_locals)) = [].
Proof.
  intros Hpre Hq. rewrite (try_body_desc st Hpre).
  destruct (before_desc_step st Hpre) as (t & l & _ & _ & _ & Hd).
  unfold desc_step, xpath, lift, bind. rewrite Hq. exact Hd.
Qed.

Lemma field_localized_description (r : ResourceContent) :
  _extract_from_html E content = Ok r ->
  field "localized_description" r
  = Some (VLocalized
      (uniq (localized_desc (fst (try_body E content init_locals))))).
Proof.
  unfold _extract_from_html. intros H.
  destruct (build_inv E _ _ H) as [t Ht].
  rewrite (build_ok E _ _ Ht) in H. injection H as <-. reflexivity.
Qed.

End SpecFacts.

(** The outcome depends on the detector through its answer for the
    title only. *)
Lemma extract_same_detector_on_title (E E' : Collaborators)
    (content : Document) :
  (forall s, dateparser_parse E' s = dateparser_parse E s) ->
  (forall l, list_set E' l = list_set E l) ->
  (forall t, title (fst (title_step E content init_locals)) = Some t ->
     detect_language E' t = detect_language E t) ->
  _extract_from_html E' content = _extract_from_html E content.
Proof.
  intros Hp Hs Hd.
  assert (Htitle : title_step E' content init_locals
                   = title_step E content init_locals).
  { revert Hd.
    unfold title_step, xpath, lift, bind, gets, modify, read, ret.
    destruct (content q_og_title) as [[|u us]|e]; [| |reflexivity].
    - destruct (content q_title) as [[|v vs]|e1]; simpl; [| |reflexivity];
        intros Hd;
        match goal with |- context [detect_language E ?x] =>
          assert (Hx : detect_language E' x = detect_language E x)
            by (apply Hd; destruct (detect_language E x); reflexivity)
        end; rewrite Hx; reflexivity.
    - destruct (contains " - " u) eqn:Hc.
      + destruct (contains_split1 _ _ Hc) as (a & b & ->). simpl.
        intros Hd.
        match goal with |- context [detect_language E ?x] =>
          assert (Hx : detect_language E' x = detect_language E x)
            by (apply Hd; destruct (detect_language E x); reflexivity)
        end. rewrite Hx. reflexivity.
      + simpl. intros Hd.
        match goal with |- context [detect_language E ?x] =>
          assert (Hx : detect_language E' x = detect_language E x)
            by (apply Hd; destruct (detect_language E x); reflexivity)
        end. rewrite Hx. reflexivity. }
  assert (Hrest : forall st,
            run_steps [image_step content; artist_step content;
                       date_step E' content; genre_step content;
                       track_step content; desc_step content] st
            = run_steps [image_step content; artist_step content;
                         date_step E content; genre_step content;
                         track_step content; desc_step content] st).
  { apply run_steps_ext.
    repeat (apply Forall2_cons; [intros st|]); [..|apply Forall2_nil];
      try reflexivity.
    unfold date_step, xpath, lift, bind.
    destruct (content q_date) as [[|m ms]|e]; try reflexivity.
    simpl. rewrite Hp. reflexivity. }
  assert (Hbody : try_body E' content init_locals
                  = try_body E content init_locals).
  { rewrite !try_body_unfold, Htitle.
    destruct (title_step E content init_locals) as [st1 [[]|e]];
      [apply Hrest | reflexivity]. }
  unfold _extract_from_html. rewrite Hbody. clear - Hs.
  unfold build.
  destruct (title (fst (try_body E content init_locals))); [|reflexivity].
  rewrite !Hs. reflexivity.
Qed.




(** C8, as stated, fails: the document holds the tracks "Intro",
    " Song A ", "  " and "Song B", which stand for the track list
    "1. Intro\n2. Song A\n3. Song B"; but the date parser raises on the
    date text, an earlier step of the same try block, and the record has
    no track list. *)
Lemma C8_track_list_counterexample :
  kind_of_blue q_tracks = Ok ["Intro"; " Song A "; "  "; "Song B"]
  /\ kept_trimmed ["Intro"; " Song A "; "  "; "Song B"]
       ["Intro"; "Song A"; "Song B"]
  /\ track_list_of ["Intro"; "Song A"; "Song B"]
       (VStr ("1. Intro" ++ line_feed ++ "2. Song A" ++ line_feed
              ++ "3. Song B"))
  /\ exists r,
       _extract_from_html (collab detect_en parse_raising) kind_of_blue
       = Ok r
       /\ field "track_list" r = Some VNone.
Proof.
  split; [reflexivity|]. split; [|split].
  - pose proof (kept_trimmed_stripped ["Intro"; " Song A "; "  "; "Song B"])
      as H.
    vm_compute in H. exact H.
  - exists (numbered ["Intro"; "Song A"; "Song B"]),
      (join newline_str (numbered ["Intro"; "Song A"; "Song B"])).
    split; [apply numbered_lines_numbered|].
    split; [apply joined_join|]. vm_compute. reflexivity.
  - eexists. split; vm_compute; reflexivity.
Qed.

(** C8, amended: the track list is as the claim says on the documents
    on which the five earlier steps of the try block (title and
    language, cover image, artists, release date, genres) raise nothing
    and the track query answers.  The matches that are not blank are
    trimmed and kept in document order; without any there is no track
    list, otherwise line i, counted from 1, is the ordinal i, a dot, a
    space and the i-th kept track, and the lines are joined by newlines:
    the matches "Intro", "Song A", "Song B" give
    "1. Intro\n2. Song A\n3. Song B".  When the track query or an
    earlier step raises, there is no track list. *)
Theorem C8_track_list (E : Collaborators) (content : Document) :
  (forall st ms,
     run_steps [title_step E content; image_step content;
                artist_step content; date_step E content;
                genre_step content] init_locals = (st, Ok tt) ->
     content q_tracks = Ok ms ->
     exists r v ts,
       _extract_from_html E content = Ok r
       /\ field "track_list" r = Some v
       /\ kept_trimmed ms ts
       /\ (forall ts', kept_trimmed ms ts' -> ts' = ts)
       /\ track_list_of ts v)
  /\ (forall st,
        run_steps [title_step E content; image_step content;
                   artist_step content; date_step E content;
                   genre_step content] init_locals = (st, Ok tt) ->
        content q_tracks = Ok ["Intro"; "Song A"; "Song B"] ->
        exists r,
          _extract_from_html E content = Ok r
          /\ field "track_list" r
             = Some (VStr ("1. Intro" ++ line_feed ++ "2. Song A"
                           ++ line_feed ++ "3. Song B")))
  /\ (forall st e r,
        run_steps [title_step E content; image_step content;
                   artist_step content; date_step E content;
                   genre_step content] init_locals = (st, Ok tt) ->
        content q_tracks = Raise e ->
        _extract_from_html E content = Ok r ->
        field "track_list" r = Some VNone)
  /\ (forall st e r,
        run_steps [title_step E content; image_step content;
                   artist_step content; date_step E content;
                   genre_step content] init_locals = (st, Raise e) ->
        _extract_from_html E content = Ok r ->
        field "track_list" r = Some VNone).
Proof.
  split; [|split; [|split]].
  - intros st ms Hpre Hq.
    destruct (track_list_when_reached E content st ms Hpre Hq)
      as (r & Hr & Hf).
    destruct (track_rule_spec ms) as (ts & Hk & Hu & Hv).
    exists r, (track_rule ms), ts. auto.
  - intros st Hpre Hq.
    destruct (track_list_when_reached E content st _ Hpre Hq)
      as (r & Hr & Hf).
    exists r. split; [exact Hr|]. rewrite Hf. vm_compute. reflexivity.
  - intros st e r _ Hq Hr.
    exact (track_list_when_query_fails E content e r Hq Hr).
  - intros st e r Hpre Hr.
    exact (track_list_when_not_reached E content st e r Hpre Hr).
Qed.

Lemma C8_track_list_witness :
  exists r,
    _extract_from_html (collab detect_en parse_known) spaced_tracks = Ok r
    /\ field "track_list" r
       = Some (VStr ("1. Intro" ++ line_feed ++ "2. Song A"
                     ++ line_feed ++ "3. Song B")).
Proof.
  destruct (C8_track_list (collab detect_en parse_known) spaced_tracks)
    as [H _].
  assert (Hpre : run_steps
            [title_step (collab detect_en parse_known) spaced_tracks;
             image_step spaced_tracks; artist_step spaced_tracks;
             date_step (collab detect_en parse_known) spaced_tracks;
             genre_step spaced_tracks] init_locals
          = (?[st], Ok tt)) by (vm_compute; reflexivity).
  destruct (H _ [" Intro"; "  "; "Song A "; "Song B"] Hpre eq_refl)
    as (r & v & ts & Hr & Hf & _ & Hu & Hv).
  exists r. split; [exact Hr|]. rewrite Hf.
  rewrite <- (Hu _ (kept_trimmed_stripped _)) in Hv.
  assert (Hts : stripped_nonblank [" Intro"; "  "; "Song A "; "Song B"]
                = ["Intro"; "Song A"; "Song B"]) by (vm_compute; reflexivity).
  rewrite Hts in Hv. unfold track_list_of in Hv.
  destruct Hv as (lines & text & Hl & Hj & ->).
  rewrite (numbered_lines_unique _ _ Hl) in Hj.
  rewrite (joined_unique _ _ _ Hj). vm_compute. reflexivity.
Defined.

(** C9, amended: the language detector is given the title and nothing
    else, once, and its answer is kept in the variable lang.  The title
    entry is the title tagged with the code detected for the title (the
    default entry, language "en" and text "Unknown Album", when the
    detector raises on it).  The description entry, when the six earlier
    steps raise nothing and the description query answers, is the first
    match, trimmed, tagged with the code detected for the title, and
    there is none without a match or for a blank one; it is empty when
    the query or an earlier step raises.  The description is not passed
    to the detector: the record is the same for any two detectors that
    agree on the title. *)
Theorem C9_language_tags (E : Collaborators) (content : Document) :
  (forall t,
     title (fst (title_step E content init_locals)) = Some t ->
     exists r,
       _extract_from_html E content = Ok r
       /\ field "localized_title" r
          = Some (VLocalized
              match detect_language E t with
              | Ok l => [mkLT l t]
              | Raise _ => default_title
              end))
  /\ (forall st ds,
        run_steps
          [title_step E content; image_step content; artist_step content;
           date_step E content; genre_step content; track_step content]
          init_locals = (st, Ok tt) ->
        content q_og_description = Ok ds ->
        exists r t l lds,
          _extract_from_html E content = Ok r
          /\ title (fst (title_step E content init_locals)) = Some t
          /\ detect_language E t = Ok l
          /\ field "localized_description" r = Some (VLocalized lds)
          /\ description_of l ds lds)
  /\ (forall st e r,
        run_steps
          [title_step E content; image_step content; artist_step content;
           date_step E content; genre_step content; track_step content]
          init_locals = (st, Ok tt) ->
        content q_og_description = Raise e ->
        _extract_from_html E content = Ok r ->
        field "localized_description" r = Some (VLocalized []))
  /\ (forall st e r,
        run_steps
          [title_step E content; image_step content; artist_step content;
           date_step E content; genre_step content; track_step content]
          init_locals = (st, Raise e) ->
        _extract_from_html E content = Ok r ->
        field "localized_description" r = Some (VLocalized []))
  /\ (forall E',
        (forall s, dateparser_parse E' s = dateparser_parse E s) ->
        (forall l, list_set E' l = list_set E l) ->
        (forall t,
           title (fst (title_step E content init_locals)) = Some t ->
           detect_language E' t = detect_language E t) ->
        _extract_from_html E' content = _extract_from_html E content).
Proof.
  split; [|split; [|split; [|split]]].
  - intros t Ht.
    destruct (extract_title_fields E content t Ht) as (r & Hr & _ & Hl).
    exists r. split; [exact Hr | exact Hl].
  - intros st ds Hpre Hq.
    destruct (before_desc_step E content st Hpre)
      as (t & l & Ht & Hdet & Hl & Hd).
    assert (Hb : title (fst (try_body E content init_locals)) = Some t).
    { rewrite try_body_title. exact Ht. }
    exists (match _extract_from_html E content with
            | Ok r => r | Raise _ => mkResourceContent [] end), t, l,
      (localized_desc (fst (desc_step content st))).
    unfold _extract_from_html. rewrite (build_ok E _ _ Hb).
    split; [reflexivity|]. split; [exact Ht|]. split; [exact Hdet|].
    split; [|exact (desc_step_exact content st l ds Hd Hl Hq)].
    cbn [metadata field dict_get]. simpl.
    rewrite (try_body_desc E content st Hpre).
    pose proof (desc_step_exact content st l ds Hd Hl Hq) as Hx.
    unfold description_of in Hx.
    destruct ds as [|d ds]; [rewrite Hx; reflexivity|].
    destruct Hx as [[_ ->] | (t' & _ & _ & ->)]; reflexivity.
  - intros st e r Hpre Hq Hr.
    rewrite (field_localized_description E content r Hr).
    rewrite (desc_absent_when_query_fails E content st e Hpre Hq).
    reflexivity.
  - intros st e r Hpre Hr.
    rewrite (field_localized_description E content r Hr).
    rewrite (desc_absent_when_not_reached E content st e Hpre).
    reflexivity.
  - intros E'. apply extract_same_detector_on_title.
Qed.

Lemma C9_language_tags_witness :
  detect_language (collab detect_fr_en parse_known) "Un album de jazz modal"
    = Ok "fr"
  /\ exists r,
       _extract_from_html (collab detect_fr_en parse_known)
         spaced_description = Ok r
       /\ field "localized_title" r
          = Some (VLocalized [mkLT "en" "Kind of Blue"])
       /\ field "localized_description" r
          = Some (VLocalized [mkLT "en" "Un album de jazz modal"])
       /\ _extract_from_html (collab detect_en parse_known)
            spaced_description = Ok r.
Proof.
  split; [reflexivity|].
  destruct (C9_language_tags (collab detect_fr_en parse_known)
              spaced_description) as (Ht & Hd & _ & _ & Hsame).
  assert (Hpre : run_steps
            [title_step (collab detect_fr_en parse_known) spaced_description;
             image_step spaced_description; artist_step spaced_description;
             date_step (collab detect_fr_en parse_known) spaced_description;
             genre_step spaced_description; track_step spaced_description]
            init_locals
          = (?[st], Ok tt)) by (vm_compute; reflexivity).
  destruct (Hd _ ["  Un album de jazz modal "; "ignored"] Hpre eq_refl)
    as (r & t & l & lds & Hr & Htitle & Hl & Hf & Hdesc).
  assert (Htitle' : title (fst (title_step
            (collab detect_fr_en parse_known) spaced_description
            init_locals)) = Some "Kind of Blue")
    by (vm_compute; reflexivity).
  destruct (Ht _ Htitle') as (r' & Hr' & Hf').
  assert (r' = r) by congruence. subst r'.
  assert (t = "Kind of Blue") by congruence. subst t.
  assert (l = "en") by (vm_compute in Hl; congruence). subst l.
  exists r. split; [exact Hr|]. split; [exact Hf'|]. split.
  - rewrite Hf. destruct Hdesc as [[Hb _] | (d & Htrim & _ & ->)].
    + vm_compute in Hb. discriminate Hb.
    + rewrite <- (trim_of_strip _ _ Htrim). vm_compute. reflexivity.
  - rewrite <- Hr. apply (Hsame (collab detect_en parse_known)).
    + reflexivity.
    + reflexivity.
    + intros t Hq. rewrite Htitle' in Hq. injection Hq as <-.
      reflexivity.
Defined.
